(** * Pathfinding core: graphs, grids and path finders

    A shallow embedding of the classes [AbsGraph] and [AbsGrid] of
    [src/pathfinding/src/include/core.h] (accessors, weight mutators and the
    pause-cost configuration) and of the single-agent search engines behind
    [AbsPathFinder::find_path], with the properties the specification
    states about them. *)

From stdpp Require Import base option numbers list gmap strings.
From Stdlib Require Import ZArith QArith Qcanon Lia.
From Stdlib Require Import Floats.SpecFloat.

Open Scope Z_scope.

(** ** C++ scalar types and containers *)

Module Cpp.

(** [double]: IEEE-754 binary64, as the inductive specification of the
    Standard Library.  The comparison operators are those of C++:
    any comparison with a NaN is [false]. *)
Definition double : Type := spec_float.

Definition prec : Z := 53.
Definition emax : Z := 1024.

(** Conversion of an [int] literal to [double] (exact for the small
    literals of the source). *)
Definition double_of_int (n : Z) : double := binary_normalize prec emax n 0 false.

Definition d_zero : double := S754_zero false.
Definition d_one : double := S754_finite false 4503599627370496 (-52).
Definition d_minus_one : double := S754_finite true 4503599627370496 (-52).

Definition dlt (x y : double) : bool := SFltb x y.
Definition dle (x y : double) : bool := SFleb x y.
Definition deq (x y : double) : bool := SFeqb x y.

(** [int] is a 32-bit signed integer, [size_t] a 64-bit unsigned one. *)
Definition is_int (n : Z) : Prop := - 2 ^ 31 <= n < 2 ^ 31.

Definition size_t_of_int (n : Z) : Z := n mod 2 ^ 64.

(** [std::vector<double>::max_size()] for an 8-byte element on a 64-bit
    target: PTRDIFF_MAX / sizeof(double). *)
Definition max_size : Z := 2 ^ 60 - 1.

(** The exceptions of <stdexcept> the source can raise.  Both derive from
    [std::logic_error] and neither derives from the other. *)
Inductive exception : Type :=
| invalid_argument (what : string)
| out_of_range.

(** What a call does: return, throw, or run into undefined behaviour. *)
Inductive outcome (A : Type) : Type :=
| Ret (a : A)
| Throw (e : exception)
| Undefined.
Global Arguments Ret {A} a.
Global Arguments Throw {A} e.
Global Arguments Undefined {A}.

Definition is_invalid_argument {A} (o : outcome A) : bool :=
  match o with
  | Throw (invalid_argument _) => true
  | _ => false
  end.

Definition is_out_of_range {A} (o : outcome A) : bool :=
  match o with
  | Throw out_of_range => true
  | _ => false
  end.

Definition raises {A} (o : outcome A) : bool :=
  match o with
  | Throw _ => true
  | _ => false
  end.

(** [v[n]]: unchecked access, undefined out of range. *)
Definition subscript {A} (v : list A) (n : Z) : outcome A :=
  match v !! Z.to_nat n with
  | Some x => Ret x
  | None => Undefined
  end.

(** [v.at(n)]: checked access, [std::out_of_range] when [n >= size()]. *)
Definition at_ {A} (v : list A) (n : Z) : outcome A :=
  if Z.of_nat (length v) <=? n then Throw out_of_range
  else subscript v n.

(** [std::fill(v.begin(), v.end(), x)]. *)
Definition fill {A} (v : list A) (x : A) : list A := replicate (length v) x.

End Cpp.
Import Cpp.

(** ** Member functions: a state and exception monad

    A non-const member function is a function from the object before the
    call to the outcome of the call and the object after it.  A [throw]
    leaves the object as the statements before it made it. *)

Definition M (S A : Type) : Type := S -> outcome A * S.

Definition ret {S A} (a : A) : M S A := fun s => (Ret a, s).

Definition bind {S A B} (m : M S A) (k : A -> M S B) : M S B :=
  fun s =>
    match m s with
    | (Ret a, s') => k a s'
    | (Throw e, s') => (Throw e, s')
    | (Undefined, s') => (Undefined, s')
    end.

Definition throw {S A} (e : exception) : M S A := fun s => (Throw e, s).

Definition gets {S A} (f : S -> A) : M S A := fun s => (Ret (f s), s).

Definition modify {S} (f : S -> S) : M S unit := fun s => (Ret tt, f s).

Notation "x <- m ;; k" := (bind m (fun x => k))
  (at level 100, m at next level, right associativity).

Definition result {S A} (m : M S A) (s : S) : outcome A := fst (m s).
Definition after {S A} (m : M S A) (s : S) : S := snd (m s).

(** ** class AbsGraph *)

Record AbsGraph : Type := mkAbsGraph {
  min_weight_ : double;
  pause_action_cost_ : double;
  edge_collision_ : bool
}.

(** The default member initialisers. *)
Definition AbsGraph_init : AbsGraph :=
  {| min_weight_ := d_one; pause_action_cost_ := d_one; edge_collision_ := false |}.

Module Graph.

Definition min_weight (g : AbsGraph) : double := min_weight_ g.

Definition set_pause_action_cost (cost : double) : M AbsGraph unit :=
  if dlt cost (double_of_int 0)
  then throw (invalid_argument "Pause action cost must be non-negative")
  else modify (fun g => {| min_weight_ := min_weight_ g;
                           pause_action_cost_ := cost;
                           edge_collision_ := edge_collision_ g |}).

Definition get_pause_action_cost (g : AbsGraph) : double := pause_action_cost_ g.

(** The overload taking a vertex ignores it. *)
Definition get_pause_action_cost_at (g : AbsGraph) (v : Z) : double :=
  pause_action_cost_ g.

Definition set_edge_collision (b : bool) : M AbsGraph unit :=
  modify (fun g => {| min_weight_ := min_weight_ g;
                      pause_action_cost_ := pause_action_cost_ g;
                      edge_collision_ := b |}).

Definition edge_collision (g : AbsGraph) : bool := edge_collision_ g.

End Graph.

(** ** class AbsGrid : public AbsGraph *)

Record AbsGrid : Type := mkAbsGrid {
  graph : AbsGraph;
  weights_ : list double;
  pause_action_cost_type_ : Z
}.

Definition with_weights (g : AbsGrid) (ws : list double) : AbsGrid :=
  {| graph := graph g; weights_ := ws;
     pause_action_cost_type_ := pause_action_cost_type_ g |}.

Definition with_graph (g : AbsGrid) (b : AbsGraph) : AbsGrid :=
  {| graph := b; weights_ := weights_ g;
     pause_action_cost_type_ := pause_action_cost_type_ g |}.

(** A member function of the base class called on the derived object. *)
Definition inherited {A} (m : M AbsGraph A) : M AbsGrid A :=
  fun g => let (o, b) := m (graph g) in (o, with_graph g b).

(** [AbsGrid::update_weight] and [AbsGrid::set_weights] are declared in
    core.h and defined in core.cpp, which is not part of the sources; they
    follow the specification, for which invalid input is a domain error of
    the invalid-argument kind, as is an out-of-range vertex id. *)
Module GridSpec.

Definition valid_weight (w : double) : bool :=
  dle (double_of_int 0) w || deq w (double_of_int (-1)).

(** Modelled from the spec: [AbsGrid::update_weight] (core.cpp),
    "update_weight(node, w) validates w >= 0 or w == -1". *)
Definition update_weight (node : Z) (w : double) : M AbsGrid unit :=
  if negb (valid_weight w)
  then throw (invalid_argument "weight must be non-negative or -1")
  else
    n <- gets (fun g => size_t_of_int node) ;;
    sz <- gets (fun g => Z.of_nat (length (weights_ g))) ;;
    if sz <=? n
    then throw (invalid_argument "node is out of range")
    else modify (fun g => with_weights g (<[Z.to_nat n := w]> (weights_ g))).

(** Modelled from the spec: [AbsGrid::set_weights] (core.cpp),
    "set_weights(vec) validates length equals N". *)
Definition set_weights (weights : list double) : M AbsGrid unit :=
  sz <- gets (fun g => length (weights_ g)) ;;
  if negb (Nat.eqb (length weights) sz)
  then throw (invalid_argument "weights must have the size of the grid")
  else modify (fun g => with_weights g weights).

End GridSpec.

Module Grid.

Definition size (g : AbsGrid) : nat := length (weights_ g).

Definition has_coordinates (g : AbsGrid) : bool := true.

Definition is_directed_graph (g : AbsGrid) : bool := false.

Definition get_weight (g : AbsGrid) (node : Z) : outcome double :=
  at_ (weights_ g) (size_t_of_int node).

Definition get_weights (g : AbsGrid) : list double := weights_ g.

Definition has_obstacle (g : AbsGrid) (node : Z) : outcome bool :=
  match get_weight g node with
  | Ret w => Ret (deq w (double_of_int (-1)))
  | Throw e => Throw e
  | Undefined => Undefined
  end.

Definition update_weight := GridSpec.update_weight.
Definition set_weights := GridSpec.set_weights.

Definition add_obstacle (node : Z) : M AbsGrid unit :=
  update_weight node (double_of_int (-1)).

Definition remove_obstacle (node : Z) : M AbsGrid unit :=
  update_weight node (double_of_int 1).

Definition clear_weights : M AbsGrid unit :=
  modify (fun g => with_weights g (fill (weights_ g) (double_of_int 1))).

Definition get_pause_action_cost_type (g : AbsGrid) : Z :=
  pause_action_cost_type_ g.

Definition set_pause_action_cost_type (type : Z) : M AbsGrid unit :=
  if (type <? 0) || (1 <? type)
  then throw (invalid_argument "value must be uint and les than 2")
  else modify (fun g => {| graph := graph g; weights_ := weights_ g;
                           pause_action_cost_type_ := type |}).

Definition get_pause_action_cost (g : AbsGrid) : double :=
  pause_action_cost_ (graph g).

Definition get_pause_action_cost_at (g : AbsGrid) (v : Z) : outcome double :=
  if pause_action_cost_type_ g =? 0
  then Ret (pause_action_cost_ (graph g))
  else
    match subscript (weights_ g) (size_t_of_int v) with
    | Ret w => if dlt w (double_of_int 0) then Ret (double_of_int 0) else Ret w
    | Throw e => Throw e
    | Undefined => Undefined
    end.

Definition set_pause_action_cost (cost : double) : M AbsGrid unit :=
  inherited (Graph.set_pause_action_cost cost).

End Grid.

(** A grid of a single cell, for examples. *)
Definition grid_1x1 (w : double) (type : Z) : AbsGrid :=
  {| graph := AbsGraph_init; weights_ := [w]; pause_action_cost_type_ := type |}.

(** ** Members inherited by AbsGrid, and states of the configuration *)

Module GridBase.

(** [AbsGraph::set_edge_collision], [edge_collision] and [min_weight]
    called on a grid. *)
Definition set_edge_collision (b : bool) : M AbsGrid unit :=
  inherited (Graph.set_edge_collision b).

Definition edge_collision (g : AbsGrid) : bool := Graph.edge_collision (graph g).

Definition min_weight (g : AbsGrid) : double := Graph.min_weight (graph g).

End GridBase.

(** A grid as the default member initialisers leave it, over the weights
    a derived class supplies. *)
Definition AbsGrid_init (ws : list double) : AbsGrid :=
  {| graph := AbsGraph_init; weights_ := ws; pause_action_cost_type_ := 0 |}.

(** The doubles strictly below zero: the negative finite numbers and
    minus infinity (neither a zero of either sign nor a NaN). *)
Definition is_negative (x : double) : bool :=
  match x with
  | S754_infinity s => s
  | S754_finite s _ _ => s
  | _ => false
  end.

(** What the two guarded setters establish: the pause cost is not below
    zero and the pause-cost type is 0 or 1. *)
Definition config_ok (g : AbsGrid) : Prop :=
  dlt (pause_action_cost_ (graph g)) d_zero = false /\
  (pause_action_cost_type_ g = 0 \/ pause_action_cost_type_ g = 1).

(** The weights the comment on [weights_] allows: -1 or at least 0. *)
Definition documented_weight (w : double) : Prop :=
  dle d_zero w = true \/ w = d_minus_one.

(** ** Path finders *)

(** Modelled from the spec: [AbsPathFinder::find_path] is pure virtual in
    core.h, and the engines that implement it (bfs.cpp, dijkstra.cpp,
    a_star.cpp) are not part of the sources.  The specification says:
    BFS has a "FIFO frontier, unweighted hop count"; Dijkstra a
    "min-priority frontier keyed on tentative distance; closed set by
    lowest-cost first expansion", ties "deterministic by vertex id"; A* a
    "min-priority on f = g + h, with h = estimate_distance(v, goal)", whose
    open list uses "lazy deletion (skip popped entries whose stored g
    exceeds the current best)"; g-scores and predecessors are kept in maps
    keyed by vertex, and the path is rebuilt from the recorded
    predecessors.  An edge is "(to: vertex, cost: real >= 0)": costs are
    taken from any ordered type with an addition that does not decrease. *)

Class Cost (C : Type) : Type := {
  czero : C;
  cone : C;
  cadd : C -> C -> C;
  cltb : C -> C -> bool
}.

Definition cleb {C} `{Cost C} (x y : C) : bool := negb (cltb y x).

Class CostLaws (C : Type) `{Cost C} : Prop := {
  cltb_irrefl : forall x, cltb x x = false;
  cltb_trans : forall x y z, cltb x y = true -> cltb y z = true -> cltb x z = true;
  cleb_trans : forall x y z, cleb x y = true -> cleb y z = true -> cleb x z = true;
  cadd_nonneg : forall x c, cleb czero c = true -> cleb x (cadd x c) = true;
  cone_nonneg : cleb czero cone = true
}.

(** What a path finder uses of the graph it is bound to. *)
Record graph_view (C : Type) : Type := mk_view {
  graph_size : nat;
  neighbors : Z -> list (Z * C);
  estimate_distance : Z -> Z -> C
}.
Global Arguments graph_size {C} _.
Global Arguments neighbors {C} _ _.
Global Arguments estimate_distance {C} _ _ _.

Definition in_range {C} (G : graph_view C) (v : Z) : Prop :=
  0 <= v < Z.of_nat (graph_size G).

(** The graph invariants of the specification: vertices are the ids
    0..N-1 and edge costs are non-negative. *)
Definition well_formed {C} `{Cost C} (G : graph_view C) : Prop :=
  forall v u c, in_range G v -> (u, c) ∈ neighbors G v ->
    in_range G u /\ cleb czero c = true.

(** [adjacent(u, v)]: there is an edge from [u] to [v]. *)
Definition adjacent {C} (G : graph_view C) (u v : Z) : Prop :=
  exists c, (v, c) ∈ neighbors G u.

Fixpoint is_path {C} (G : graph_view C) (p : list Z) : Prop :=
  match p with
  | [] => True
  | u :: q =>
      match q with
      | [] => True
      | v :: _ => adjacent G u v /\ is_path G q
      end
  end.

(** A path from [s] to [t]: a sequence of vertices, each adjacent to the
    next, that begins with [s] and ends with [t]. *)
Definition path_between {C} (G : graph_view C) (s t : Z) (p : list Z) : Prop :=
  head p = Some s /\ last p = Some t /\ is_path G p.

Definition path_exists {C} (G : graph_view C) (s t : Z) : Prop :=
  exists p, path_between G s t p.

Inductive engine : Type := BFS | Dijkstra | AStar.

Module Search.

Record entry (C : Type) : Type := mk_entry {
  key : C;
  dist : C;
  node : Z
}.
Global Arguments mk_entry {C} _ _ _.
Global Arguments key {C} _.
Global Arguments dist {C} _.
Global Arguments node {C} _.

Record state (C : Type) : Type := mk_state {
  open : list (entry C);
  g_score : gmap Z C;
  parent : gmap Z Z;
  closed : gset Z
}.
Global Arguments mk_state {C} _ _ _ _.
Global Arguments open {C} _.
Global Arguments g_score {C} _.
Global Arguments parent {C} _.
Global Arguments closed {C} _.

Inductive progress (C : Type) : Type :=
| Exhausted
| Reached (s : state C)
| Continue (s : state C).
Global Arguments Exhausted {C}.
Global Arguments Reached {C} _.
Global Arguments Continue {C} _.

Section Engine.
Context {C : Type} `{Cost C}.
Variable G : graph_view C.
Variable alg : engine.
Variables start goal : Z.

(** [better e1 e2]: [e1] leaves the priority queue before [e2]. *)
Definition better (e1 e2 : entry C) : bool :=
  cltb (key e1) (key e2) ||
  (negb (cltb (key e2) (key e1)) && (node e1 <? node e2)).

Fixpoint extract_min (l : list (entry C)) : option (entry C * list (entry C)) :=
  match l with
  | [] => None
  | e :: l' =>
      match extract_min l' with
      | None => Some (e, [])
      | Some (m, r) => if better m e then Some (m, e :: r) else Some (e, l')
      end
  end.

(** Taking the next entry: the oldest one for BFS, a least one otherwise. *)
Definition pop (l : list (entry C)) : option (entry C * list (entry C)) :=
  match alg with
  | BFS => match l with [] => None | e :: r => Some (e, r) end
  | _ => extract_min l
  end.

(** Whether a popped entry is still to be expanded. *)
Definition fresh (s : state C) (e : entry C) : bool :=
  match alg with
  | BFS => true
  | Dijkstra => bool_decide (node e ∉ closed s)
  | AStar =>
      match g_score s !! node e with
      | Some best => negb (cltb best (dist e))
      | None => false
      end
  end.

Definition edge_length (c : C) : C :=
  match alg with
  | BFS => cone
  | _ => c
  end.

Definition priority (u : Z) (g : C) : C :=
  match alg with
  | AStar => cadd g (estimate_distance G u goal)
  | _ => g
  end.

Definition improves (s : state C) (u : Z) (g : C) : bool :=
  match alg with
  | BFS => bool_decide (g_score s !! u = None)
  | Dijkstra =>
      bool_decide (u ∉ closed s) &&
      match g_score s !! u with
      | Some old => cltb g old
      | None => true
      end
  | AStar =>
      match g_score s !! u with
      | Some old => cltb g old
      | None => true
      end
  end.

Definition relax (v : Z) (gv : C) (s : state C) (e : Z * C) : state C :=
  let g := cadd gv (edge_length e.2) in
  if improves s e.1 g
  then {| open := open s ++ [mk_entry (priority e.1 g) g e.1];
          g_score := <[e.1 := g]> (g_score s);
          parent := <[e.1 := v]> (parent s);
          closed := closed s |}
  else s.

Definition close (v : Z) (s : state C) : state C :=
  match alg with
  | Dijkstra => {| open := open s; g_score := g_score s; parent := parent s;
                   closed := {[v]} ∪ closed s |}
  | _ => s
  end.

Definition expand (v : Z) (s : state C) : state C :=
  match g_score s !! v with
  | Some gv => foldl (relax v gv) (close v s) (neighbors G v)
  | None => s
  end.

Definition with_open (s : state C) (l : list (entry C)) : state C :=
  {| open := l; g_score := g_score s; parent := parent s; closed := closed s |}.

Definition step (s : state C) : progress C :=
  match pop (open s) with
  | None => Exhausted
  | Some (e, rest) =>
      let s1 := with_open s rest in
      if fresh s1 e
      then if node e =? goal then Reached s1 else Continue (expand (node e) s1)
      else Continue s1
  end.

(** Following the recorded predecessors from [v] back to [start]. *)
Fixpoint reconstruct_path (fuel : nat) (par : gmap Z Z) (v : Z) (acc : list Z)
  : option (list Z) :=
  if v =? start then Some (start :: acc)
  else
    match fuel with
    | O => None
    | S fuel' =>
        match par !! v with
        | Some p => reconstruct_path fuel' par p (v :: acc)
        | None => None
        end
    end.

(** Modelled from the spec: the loop shared by [BFS::find_path],
    [Dijkstra::find_path] and [AStar::find_path] (bfs.cpp, dijkstra.cpp,
    a_star.cpp); [None] when [fuel] iterations do not suffice. *)
Fixpoint search (fuel : nat) (s : state C) : option (list Z) :=
  match fuel with
  | O => None
  | S fuel' =>
      match step s with
      | Exhausted => Some []
      | Reached s1 => reconstruct_path fuel (parent s1) goal []
      | Continue s' => search fuel' s'
      end
  end.

Definition init : state C :=
  {| open := [mk_entry (priority start czero) czero start];
     g_score := {[start := czero]};
     parent := ∅;
     closed := ∅ |}.

(** Modelled from the spec: [find_path(start, goal)] of the engine [alg]
    (bfs.cpp, dijkstra.cpp, a_star.cpp). *)
Definition find_path (fuel : nat) : option (list Z) := search fuel init.

End Engine.

End Search.

(** Integer costs and rational costs. *)
Global Instance Z_cost : Cost Z :=
  {| czero := 0; cone := 1; cadd := Z.add; cltb := Z.ltb |}.

Global Instance Qc_cost : Cost Qc :=
  {| czero := 0%Qc; cone := 1%Qc; cadd := Qcplus;
     cltb := fun x y => bool_decide (x < y)%Qc |}.

(** The graph of the specification's third scenario: vertices 0..3 and the
    undirected edges (0,1,1), (1,2,1), (0,2,3), (2,3,1); the heuristic is
    constantly 0. *)
Definition scenario_graph : graph_view Z :=
  {| graph_size := 4;
     neighbors := fun v =>
       if v =? 0 then [(1, 1); (2, 3)]
       else if v =? 1 then [(0, 1); (2, 1)]
       else if v =? 2 then [(1, 1); (0, 3); (3, 1)]
       else if v =? 3 then [(2, 1)]
       else [];
     estimate_distance := fun _ _ => 0 |}.

(** The same graph with the long edge at cost 5/2, over the rationals. *)
Definition scenario_graph_Qc : graph_view Qc :=
  {| graph_size := 4;
     neighbors := fun v =>
       if v =? 0 then [(1, 1%Qc); (2, Q2Qc (Qmake 5 2))]
       else if v =? 1 then [(0, 1%Qc); (2, 1%Qc)]
       else if v =? 2 then [(1, 1%Qc); (0, Q2Qc (Qmake 5 2)); (3, 1%Qc)]
       else if v =? 3 then [(2, 1%Qc)]
       else [];
     estimate_distance := fun _ _ => 0%Qc |}.

(** Two vertices and no edge. *)
Definition two_islands : graph_view Z :=
  {| graph_size := 2; neighbors := fun _ => []; estimate_distance := fun _ _ => 0 |}.

(** *** Notions used to state and prove the contract *)

Module SearchProof.
Import Search.

(** A trail is a list of edges (source, target, cost), last edge first. *)
Definition trail (C : Type) : Type := list (Z * Z * C).

Section Ghost.
Context {C : Type} `{Cost C}.
Variable G : graph_view C.
Variable alg : engine.
Variables start goal : Z.

Definition seen (s : state C) (u : Z) : Prop := is_Some (g_score s !! u).

(** [u] is linked to [start] by the recorded predecessors. *)
Inductive rooted (par : gmap Z Z) : Z -> Prop :=
| rooted_start : rooted par start
| rooted_step u p : par !! u = Some p -> rooted par p -> rooted par u.

(** The same, along a chain that does not visit [x]. *)
Inductive rooted_avoiding (par : gmap Z Z) (x : Z) : Z -> Prop :=
| avoiding_start : start <> x -> rooted_avoiding par x start
| avoiding_step u p :
    u <> x -> par !! u = Some p -> rooted_avoiding par x p ->
    rooted_avoiding par x u.


Definition trail_cost (w : trail C) : C :=
  foldr (fun e acc => cadd acc (edge_length alg e.2)) czero w.

Definition trail_nodes (w : trail C) : list Z := start :: map (fun e => e.1.2) w.

(** [justifies s u w]: [w] leads from [start] to [u] through distinct
    vertices, and no vertex on it has a g-score above the cost of reaching
    it along [w]. *)
Inductive justifies (s : state C) : Z -> trail C -> Prop :=
| justifies_nil : justifies s start []
| justifies_cons v u c w gu :
    justifies s v w ->
    in_range G v -> (u, c) ∈ neighbors G v ->
    u ∉ trail_nodes w ->
    g_score s !! u = Some gu ->
    cleb gu (cadd (trail_cost w) (edge_length alg c)) = true ->
    justifies s u ((v, u, c) :: w).

Definition all_edges : list (Z * Z * C) :=
  v ← seqZ 0 (Z.of_nat (graph_size G));
  (fun e : Z * C => (v, e.1, e.2)) <$> neighbors G v.

(** Every list of at most [k] edges of the graph. *)
Fixpoint words (k : nat) : list (trail C) :=
  match k with
  | O => [[]]
  | S k' => [] :: (e ← all_edges; (cons e) <$> words k')
  end.

Definition candidates : list (trail C) := words (graph_size G).

Definition rank (s : state C) (u : Z) : nat :=
  match g_score s !! u with
  | Some x => length (filter (fun w => cltb (trail_cost w) x = true) candidates)
  | None => S (length candidates)
  end.

Definition measure (s : state C) : nat :=
  (2 * sum_list_with (rank s) (seqZ 0 (Z.of_nat (graph_size G))) + length (open s))%nat.

(** The state after recording that [u] is reached from [v] at cost [g]. *)
Definition update (s : state C) (v u : Z) (g : C) : state C :=
  {| open := open s ++ [mk_entry (priority G alg goal u g) g u];
     g_score := <[u := g]> (g_score s);
     parent := <[u := v]> (parent s);
     closed := closed s |}.

(** [g] is a first or a strictly better g-score for [u]. *)
Definition improving (s : state C) (u : Z) (g : C) : Prop :=
  g_score s !! u = None \/
  exists old, g_score s !! u = Some old /\ cltb g old = true.

Definition has_live (s : state C) (u : Z) : Prop :=
  exists e, e ∈ open s /\ node e = u /\ fresh alg s e = true.

Definition settled (s : state C) (u : Z) : Prop :=
  u <> goal /\ forall x c, (x, c) ∈ neighbors G u -> seen s x.

Record invariant (s : state C) : Prop := {
  inv_range : forall u, seen s u -> in_range G u;
  inv_start : g_score s !! start = Some czero;
  inv_open : forall e, e ∈ open s -> seen s (node e);
  inv_closed : forall u, u ∈ closed s -> seen s u;
  inv_parent : forall u p, parent s !! u = Some p ->
    exists gu gp, g_score s !! u = Some gu /\ g_score s !! p = Some gp /\
                  cleb gp gu = true /\ adjacent G p u;
  inv_rooted : forall u, seen s u -> rooted (parent s) u;
  inv_ghost : forall u gu, g_score s !! u = Some gu ->
    exists w, justifies s u w /\ trail_cost w = gu
}.

(** Between two steps, every seen vertex is either waiting in the open
    list or has had all its neighbours seen. *)
Definition frontier_complete (s : state C) : Prop :=
  forall u, seen s u -> has_live s u \/ settled s u.

Definition frontier_complete_but (v : Z) (s : state C) : Prop :=
  forall u, u <> v -> seen s u -> has_live s u \/ settled s u.

End Ghost.

End SearchProof.

(** The literals of the source, converted to [double]. *)
Lemma double_of_int_0 : double_of_int 0 = d_zero.
Proof. reflexivity. Qed.

Lemma double_of_int_1 : double_of_int 1 = d_one.
Proof. reflexivity. Qed.

Lemma double_of_int_m1 : double_of_int (-1) = d_minus_one.
Proof. reflexivity. Qed.

(** * Properties *)

(** ** Facts about the scalar types *)

Lemma size_t_of_int_nonneg (n : Z) : is_int n -> 0 <= n -> size_t_of_int n = n.
Proof.
  unfold is_int, size_t_of_int. intros [_ Hn] H0.
  apply Z.mod_small. split; [lia|].
  eapply Z.lt_trans; [exact Hn|]. reflexivity.
Qed.

Lemma size_t_of_int_neg (n : Z) : is_int n -> n < 0 -> 2 ^ 63 <= size_t_of_int n.
Proof.
  unfold is_int, size_t_of_int. intros [Hn _] H0.
  assert (E : n mod 2 ^ 64 = n + 2 ^ 64).
  { symmetry. apply (Z.mod_unique n (2 ^ 64) (-1)); lia. }
  rewrite E. lia.
Qed.

Lemma deq_minus_one (w : double) : deq w d_minus_one = true <-> w = d_minus_one.
Proof.
  split; [|intros ->; reflexivity].
  unfold deq, SFeqb, d_minus_one.
  destruct w as [s|s| |s m e]; try discriminate.
  - destruct s; discriminate.
  - destruct s; [|discriminate].
    cbn [SFcompare].
    destruct (Z.compare_spec e (-52)) as [->| |]; try discriminate.
    destruct (PosDef.Pos.compare_cont Eq m 4503599627370496) eqn:E;
      try discriminate.
    apply Pos.compare_eq in E. subst m. reflexivity.
Qed.

Lemma dle_zero_not_minus_one (w : double) :
  dle d_zero w = true -> deq w d_minus_one = false.
Proof.
  destruct w as [s|s| |s m e]; try reflexivity.
  - destruct s; reflexivity.
  - destruct s; [discriminate | reflexivity].
Qed.

Lemma dle_zero_not_dlt (w : double) :
  dle d_zero w = true -> dlt w d_zero = false.
Proof.
  destruct w as [s|s| |s m e]; try reflexivity.
  - destruct s; [discriminate | reflexivity].
  - destruct s; [discriminate | reflexivity].
Qed.

Lemma valid_weight_spec (w : double) :
  GridSpec.valid_weight w = true <-> dle d_zero w = true \/ w = d_minus_one.
Proof.
  unfold GridSpec.valid_weight.
  rewrite double_of_int_0, double_of_int_m1, orb_true_iff, deq_minus_one.
  reflexivity.
Qed.

(** ** Reading a cell *)

Lemma subscript_in_range {A} (v : list A) (n : Z) :
  0 <= n < Z.of_nat (length v) ->
  exists x, v !! Z.to_nat n = Some x /\ subscript v n = Ret x /\ at_ v n = Ret x.
Proof.
  intros Hn.
  destruct (lookup_lt_is_Some_2 v (Z.to_nat n)) as [x Hx]; [lia|].
  exists x. unfold at_, subscript. rewrite Hx.
  destruct (Z.leb_spec (Z.of_nat (length v)) n); [lia|]. auto.
Qed.

Lemma at_out_of_range {A} (v : list A) (n : Z) :
  Z.of_nat (length v) <= n -> at_ v n = Throw out_of_range.
Proof.
  intros Hn. unfold at_.
  destruct (Z.leb_spec (Z.of_nat (length v)) n); [reflexivity | lia].
Qed.

Lemma get_weight_in_range (g : AbsGrid) (v : Z) :
  is_int v -> 0 <= v < Z.of_nat (Grid.size g) ->
  exists w, weights_ g !! Z.to_nat v = Some w /\ Grid.get_weight g v = Ret w.
Proof.
  intros Hi Hv. unfold Grid.get_weight.
  rewrite size_t_of_int_nonneg by (auto; lia).
  destruct (subscript_in_range (weights_ g) v Hv) as (w & H1 & _ & H2).
  eauto.
Qed.

Lemma get_weight_lookup (g : AbsGrid) (v : Z) (w : double) :
  is_int v -> 0 <= v -> weights_ g !! Z.to_nat v = Some w ->
  Grid.get_weight g v = Ret w.
Proof.
  intros Hi Hv Hw. unfold Grid.get_weight, at_, subscript.
  rewrite size_t_of_int_nonneg by auto.
  apply lookup_lt_Some in Hw as Hlt.
  destruct (Z.leb_spec (Z.of_nat (length (weights_ g))) v); [lia|].
  now rewrite Hw.
Qed.

(** ** Pause cost of a cell *)

(** C1: on an in-range vertex, [get_pause_action_cost(v)] is the fixed
    pause cost when the type is 0; when the type is 1 it is the weight of
    the cell, and 0 when that weight is negative (the obstacle value -1 in
    particular). *)
Theorem get_pause_action_cost_by_type (g : AbsGrid) (v : Z) :
  is_int v -> 0 <= v < Z.of_nat (Grid.size g) ->
  exists w,
    Grid.get_weight g v = Ret w /\
    (Grid.get_pause_action_cost_type g = 0 ->
       Grid.get_pause_action_cost_at g v = Ret (pause_action_cost_ (graph g))) /\
    (Grid.get_pause_action_cost_type g = 1 ->
       Grid.get_pause_action_cost_at g v = Ret (if dlt w d_zero then d_zero else w)) /\
    (Grid.get_pause_action_cost_type g = 1 -> w = d_minus_one ->
       Grid.get_pause_action_cost_at g v = Ret d_zero).
Proof.
  intros Hi Hv.
  destruct (get_weight_in_range g v Hi Hv) as (w & Hw & Hg).
  exists w. split; [exact Hg|].
  unfold Grid.get_pause_action_cost_type, Grid.get_pause_action_cost_at.
  assert (Hs : subscript (weights_ g) (size_t_of_int v) = Ret w).
  { rewrite size_t_of_int_nonneg by (auto; lia). unfold subscript. now rewrite Hw. }
  rewrite Hs, double_of_int_0.
  split; [|split].
  - intros ->. reflexivity.
  - intros ->. change (1 =? 0) with false. cbv iota.
    destruct (dlt w d_zero); reflexivity.
  - intros -> ->. reflexivity.
Qed.

Lemma get_pause_action_cost_by_type_witness :
  exists w,
    Grid.get_weight (grid_1x1 d_minus_one 1) 0 = Ret w /\
    Grid.get_pause_action_cost_at (grid_1x1 d_minus_one 1) 0 = Ret d_zero.
Proof.
  destruct (get_pause_action_cost_by_type (grid_1x1 d_minus_one 1) 0)
    as (w & Hw & _ & _ & H).
  - unfold is_int. lia.
  - unfold Grid.size. cbn [grid_1x1 weights_ length]. lia.
  - exists w. split; [exact Hw|].
    apply H; [reflexivity|].
    cbv in Hw. injection Hw as <-. reflexivity.
Defined.

(** ** Out-of-range vertex ids *)

(** C3, as stated, fails: [get_weight] uses [vector::at], whose exception is
    [std::out_of_range], not [std::invalid_argument]. *)
Lemma get_weight_out_of_range_not_invalid_argument :
  Grid.size (grid_1x1 d_one 0) = 1%nat /\
  Grid.get_weight (grid_1x1 d_one 0) 1 = Throw out_of_range /\
  is_invalid_argument (Grid.get_weight (grid_1x1 d_one 0) 1) = false.
Proof. repeat split. Qed.

(** C3, amended: for a vertex id outside 0..size()-1, [get_weight] and
    [has_obstacle] raise [std::out_of_range]; [get_pause_action_cost(v)]
    does not check the id and, with type 0, returns the fixed cost. *)
Theorem get_weight_out_of_range (g : AbsGrid) (v : Z) :
  is_int v -> Z.of_nat (Grid.size g) <= max_size ->
  ~ (0 <= v < Z.of_nat (Grid.size g)) ->
  Grid.get_weight g v = Throw out_of_range /\
  Grid.has_obstacle g v = Throw out_of_range /\
  (Grid.get_pause_action_cost_type g = 0 ->
     Grid.get_pause_action_cost_at g v = Ret (pause_action_cost_ (graph g))).
Proof.
  intros Hi Hmax Hv.
  assert (H : Grid.get_weight g v = Throw out_of_range).
  { unfold Grid.get_weight. apply at_out_of_range.
    fold (Grid.size g).
    destruct (Z.lt_ge_cases v 0) as [Hneg|Hpos].
    - pose proof (size_t_of_int_neg v Hi Hneg) as Hbig.
      unfold max_size in Hmax.
      assert (2 ^ 60 < 2 ^ 63) by reflexivity. lia.
    - rewrite size_t_of_int_nonneg by auto. lia. }
  split; [exact H|]. split; [unfold Grid.has_obstacle; now rewrite H|].
  unfold Grid.get_pause_action_cost_type, Grid.get_pause_action_cost_at.
  intros ->. reflexivity.
Qed.

Lemma get_weight_out_of_range_witness :
  Grid.get_weight (grid_1x1 d_one 0) (-1) = Throw out_of_range /\
  Grid.has_obstacle (grid_1x1 d_one 0) (-1) = Throw out_of_range /\
  (Grid.get_pause_action_cost_type (grid_1x1 d_one 0) = 0 ->
     Grid.get_pause_action_cost_at (grid_1x1 d_one 0) (-1)
       = Ret (pause_action_cost_ (graph (grid_1x1 d_one 0)))).
Proof.
  apply get_weight_out_of_range.
  - unfold is_int. lia.
  - unfold Grid.size, max_size. cbn [grid_1x1 weights_ length]. lia.
  - lia.
Defined.

(** ** Configuring the pause cost *)

(** C4: [set_pause_action_cost(c)] raises [std::invalid_argument] exactly
    when [c < 0], and then leaves the stored cost as it was; for [c >= 0]
    it stores [c], which [get_pause_action_cost()] then returns. *)
Theorem set_pause_action_cost_spec (g : AbsGraph) (c : double) :
  (is_invalid_argument (result (Graph.set_pause_action_cost c) g) = true <->
     dlt c d_zero = true) /\
  (raises (result (Graph.set_pause_action_cost c) g) = true <->
     dlt c d_zero = true) /\
  (dlt c d_zero = true -> after (Graph.set_pause_action_cost c) g = g) /\
  (dle d_zero c = true ->
     result (Graph.set_pause_action_cost c) g = Ret tt /\
     Graph.get_pause_action_cost (after (Graph.set_pause_action_cost c) g) = c).
Proof.
  unfold result, after, Graph.set_pause_action_cost, Graph.get_pause_action_cost.
  rewrite double_of_int_0.
  pose proof (dle_zero_not_dlt c) as Hle.
  destruct (dlt c d_zero);
    cbn [throw modify fst snd is_invalid_argument raises pause_action_cost_].
  - repeat split; intros; try reflexivity.
    all: specialize (Hle ltac:(assumption)); discriminate.
  - repeat split; intros; try reflexivity; discriminate.
Qed.

(** C5: [set_pause_action_cost_type(t)] raises [std::invalid_argument]
    exactly when [t] is neither 0 nor 1, and then leaves the stored type as
    it was; for [t] in {0, 1} it stores [t], which
    [get_pause_action_cost_type()] then returns. *)
Theorem set_pause_action_cost_type_spec (g : AbsGrid) (t : Z) :
  (is_invalid_argument (result (Grid.set_pause_action_cost_type t) g) = true <->
     t <> 0 /\ t <> 1) /\
  (raises (result (Grid.set_pause_action_cost_type t) g) = true <->
     t <> 0 /\ t <> 1) /\
  (t <> 0 /\ t <> 1 -> after (Grid.set_pause_action_cost_type t) g = g) /\
  (t = 0 \/ t = 1 ->
     result (Grid.set_pause_action_cost_type t) g = Ret tt /\
     Grid.get_pause_action_cost_type (after (Grid.set_pause_action_cost_type t) g) = t /\
     weights_ (after (Grid.set_pause_action_cost_type t) g) = weights_ g /\
     graph (after (Grid.set_pause_action_cost_type t) g) = graph g).
Proof.
  unfold result, after, Grid.set_pause_action_cost_type,
    Grid.get_pause_action_cost_type.
  destruct (Z.ltb_spec t 0) as [H0|H0], (Z.ltb_spec 1 t) as [H1|H1];
    cbn [orb throw modify fst snd is_invalid_argument raises
         pause_action_cost_type_ weights_ graph];
    repeat split; intros; try lia; try reflexivity; try discriminate.
Qed.

(** ** Obstacles and weights *)

(** C6: on an in-range cell, [has_obstacle] is true exactly when the stored
    weight is the sentinel -1; a cell of weight [w >= 0] is passable and
    [get_weight] gives its entry cost [w]. *)
Theorem has_obstacle_iff_sentinel (g : AbsGrid) (v : Z) :
  is_int v -> 0 <= v < Z.of_nat (Grid.size g) ->
  exists w b,
    weights_ g !! Z.to_nat v = Some w /\
    Grid.get_weight g v = Ret w /\
    Grid.has_obstacle g v = Ret b /\
    (b = true <-> w = d_minus_one) /\
    (dle d_zero w = true -> b = false).
Proof.
  intros Hi Hv.
  destruct (get_weight_in_range g v Hi Hv) as (w & Hl & Hw).
  exists w, (deq w d_minus_one).
  split; [exact Hl|]. split; [exact Hw|].
  split; [|split].
  - unfold Grid.has_obstacle. now rewrite Hw, double_of_int_m1.
  - apply deq_minus_one.
  - apply dle_zero_not_minus_one.
Qed.

Lemma has_obstacle_iff_sentinel_witness :
  exists w b,
    weights_ (grid_1x1 d_minus_one 0) !! Z.to_nat 0 = Some w /\
    Grid.get_weight (grid_1x1 d_minus_one 0) 0 = Ret w /\
    Grid.has_obstacle (grid_1x1 d_minus_one 0) 0 = Ret b /\
    (b = true <-> w = d_minus_one) /\
    (dle d_zero w = true -> b = false).
Proof.
  apply (has_obstacle_iff_sentinel (grid_1x1 d_minus_one 0) 0).
  - unfold is_int. lia.
  - unfold Grid.size. cbn [grid_1x1 weights_ length]. lia.
Defined.

(** The two branches of [update_weight] and of [set_weights]. *)

Lemma update_weight_invalid (g : AbsGrid) (node : Z) (w : double) :
  GridSpec.valid_weight w = false ->
  exists msg, GridSpec.update_weight node w g = (Throw (invalid_argument msg), g).
Proof.
  intros H. unfold GridSpec.update_weight. rewrite H. eexists. reflexivity.
Qed.

Lemma update_weight_ok (g : AbsGrid) (node : Z) (w : double) :
  GridSpec.valid_weight w = true ->
  is_int node -> 0 <= node < Z.of_nat (Grid.size g) ->
  GridSpec.update_weight node w g =
    (Ret tt, with_weights g (<[Z.to_nat node := w]> (weights_ g))).
Proof.
  intros H Hi Hv. unfold GridSpec.update_weight. rewrite H.
  unfold bind, gets, modify, throw. cbn [negb].
  rewrite size_t_of_int_nonneg by (auto; lia).
  unfold Grid.size in Hv.
  destruct (Z.leb_spec (Z.of_nat (length (weights_ g))) node); [lia|].
  reflexivity.
Qed.

Lemma update_weight_out_of_range (g : AbsGrid) (node : Z) (w : double) :
  GridSpec.valid_weight w = true ->
  is_int node -> Z.of_nat (Grid.size g) <= max_size ->
  ~ (0 <= node < Z.of_nat (Grid.size g)) ->
  exists msg, GridSpec.update_weight node w g = (Throw (invalid_argument msg), g).
Proof.
  intros H Hi Hmax Hv. unfold GridSpec.update_weight. rewrite H.
  unfold bind, gets, modify, throw. cbn [negb].
  unfold Grid.size in *.
  assert (Hn : Z.of_nat (length (weights_ g)) <= size_t_of_int node).
  { destruct (Z.lt_ge_cases node 0) as [Hneg|Hpos].
    - pose proof (size_t_of_int_neg node Hi Hneg) as Hbig.
      unfold max_size in Hmax.
      assert (2 ^ 60 < 2 ^ 63) by reflexivity. lia.
    - rewrite size_t_of_int_nonneg by auto. lia. }
  destruct (Z.leb_spec (Z.of_nat (length (weights_ g))) (size_t_of_int node));
    [|lia].
  eexists. reflexivity.
Qed.

Lemma get_weight_updated (g : AbsGrid) (node : Z) (w : double) :
  is_int node -> 0 <= node < Z.of_nat (Grid.size g) ->
  Grid.get_weight (with_weights g (<[Z.to_nat node := w]> (weights_ g))) node = Ret w.
Proof.
  intros Hi Hv. apply get_weight_lookup; [auto | lia |].
  cbn [with_weights weights_].
  apply list_lookup_insert_eq. unfold Grid.size in Hv. lia.
Qed.

(** C7: [update_weight(node, w)] raises a domain error unless [w >= 0] or
    [w == -1], and on an in-range node stores a valid [w]; [set_weights(vec)]
    raises a domain error unless [vec] has [size()] elements, and then
    replaces the weights.  A raised error leaves the grid as it was. *)
Theorem weight_updates_validate (g : AbsGrid) (node : Z) (w : double)
    (vec : list double) :
  (GridSpec.valid_weight w = true <-> dle d_zero w = true \/ w = d_minus_one) /\
  (GridSpec.valid_weight w = false ->
     is_invalid_argument (result (Grid.update_weight node w) g) = true /\
     after (Grid.update_weight node w) g = g) /\
  (GridSpec.valid_weight w = true ->
     is_int node -> 0 <= node < Z.of_nat (Grid.size g) ->
     result (Grid.update_weight node w) g = Ret tt /\
     weights_ (after (Grid.update_weight node w) g)
       = <[Z.to_nat node := w]> (weights_ g) /\
     Grid.get_weight (after (Grid.update_weight node w) g) node = Ret w) /\
  (length vec <> Grid.size g ->
     is_invalid_argument (result (Grid.set_weights vec) g) = true /\
     after (Grid.set_weights vec) g = g) /\
  (length vec = Grid.size g ->
     result (Grid.set_weights vec) g = Ret tt /\
     Grid.get_weights (after (Grid.set_weights vec) g) = vec).
Proof.
  split; [apply valid_weight_spec|].
  unfold result, after, Grid.update_weight, Grid.set_weights.
  split; [|split; [|split]].
  - intros H. destruct (update_weight_invalid g node w H) as [msg ->].
    split; reflexivity.
  - intros H Hi Hv. rewrite (update_weight_ok g node w H Hi Hv).
    cbn [fst snd]. split; [reflexivity|]. split; [reflexivity|].
    now apply get_weight_updated.
  - intros Hne. unfold GridSpec.set_weights, bind, gets, throw, modify.
    destruct (Nat.eqb_spec (length vec) (length (weights_ g))) as [E|E];
      [contradiction|]. split; reflexivity.
  - intros Heq. unfold GridSpec.set_weights, bind, gets, throw, modify.
    destruct (Nat.eqb_spec (length vec) (length (weights_ g))) as [E|E];
      [|contradiction]. split; reflexivity.
Qed.

Lemma valid_weight_one : GridSpec.valid_weight (double_of_int 1) = true.
Proof. reflexivity. Qed.

Lemma valid_weight_minus_one : GridSpec.valid_weight (double_of_int (-1)) = true.
Proof. reflexivity. Qed.

Lemma size_with_weights_insert (g : AbsGrid) (n : nat) (w : double) :
  Grid.size (with_weights g (<[n := w]> (weights_ g))) = Grid.size g.
Proof. unfold Grid.size. cbn [with_weights weights_]. apply length_insert. Qed.

Lemma has_obstacle_of_weight (g : AbsGrid) (v : Z) (w : double) :
  Grid.get_weight g v = Ret w ->
  Grid.has_obstacle g v = Ret (deq w d_minus_one).
Proof.
  intros H. unfold Grid.has_obstacle. now rewrite H, double_of_int_m1.
Qed.

Lemma add_obstacle_ok (g : AbsGrid) (v : Z) :
  is_int v -> 0 <= v < Z.of_nat (Grid.size g) ->
  Grid.add_obstacle v g =
    (Ret tt, with_weights g (<[Z.to_nat v := d_minus_one]> (weights_ g))).
Proof.
  intros Hi Hv. unfold Grid.add_obstacle, Grid.update_weight.
  rewrite (update_weight_ok g v _ valid_weight_minus_one Hi Hv).
  now rewrite double_of_int_m1.
Qed.

Lemma remove_obstacle_ok (g : AbsGrid) (v : Z) :
  is_int v -> 0 <= v < Z.of_nat (Grid.size g) ->
  Grid.remove_obstacle v g =
    (Ret tt, with_weights g (<[Z.to_nat v := d_one]> (weights_ g))).
Proof.
  intros Hi Hv. unfold Grid.remove_obstacle, Grid.update_weight.
  rewrite (update_weight_ok g v _ valid_weight_one Hi Hv).
  now rewrite double_of_int_1.
Qed.

(** C9: [remove_obstacle(v)] stores the constant 1 in cell [v], whatever
    the cell held before it became an obstacle, and [clear_weights()]
    stores 1 in every cell; the cells are then passable with weight 1. *)
Theorem remove_obstacle_sets_one (g : AbsGrid) (v : Z) :
  is_int v -> 0 <= v < Z.of_nat (Grid.size g) ->
  result (Grid.remove_obstacle v) g = Ret tt /\
  Grid.get_weight (after (Grid.remove_obstacle v) g) v = Ret d_one /\
  Grid.has_obstacle (after (Grid.remove_obstacle v) g) v = Ret false /\
  Grid.get_weight
    (after (Grid.remove_obstacle v) (after (Grid.add_obstacle v) g)) v = Ret d_one /\
  result Grid.clear_weights g = Ret tt /\
  Grid.size (after Grid.clear_weights g) = Grid.size g /\
  (forall u, is_int u -> 0 <= u < Z.of_nat (Grid.size g) ->
     Grid.get_weight (after Grid.clear_weights g) u = Ret d_one /\
     Grid.has_obstacle (after Grid.clear_weights g) u = Ret false).
Proof.
  intros Hi Hv. unfold result, after.
  rewrite (remove_obstacle_ok g v Hi Hv), (add_obstacle_ok g v Hi Hv).
  cbn [fst snd].
  pose proof (get_weight_updated g v d_one Hi Hv) as H1.
  split; [reflexivity|]. split; [exact H1|].
  split; [now rewrite (has_obstacle_of_weight _ _ _ H1)|].
  set (g1 := with_weights g (<[Z.to_nat v := d_minus_one]> (weights_ g))).
  assert (Hv1 : 0 <= v < Z.of_nat (Grid.size g1))
    by (unfold g1; now rewrite size_with_weights_insert).
  rewrite (remove_obstacle_ok g1 v Hi Hv1). cbn [snd].
  split; [exact (get_weight_updated g1 v d_one Hi Hv1)|].
  split; [reflexivity|].
  unfold Grid.clear_weights, modify, fill. cbn [snd].
  rewrite double_of_int_1.
  split.
  - unfold Grid.size. cbn [with_weights weights_]. apply length_replicate.
  - intros u Hu Hur.
    assert (Hg : Grid.get_weight
                   (with_weights g (replicate (length (weights_ g)) d_one)) u
                 = Ret d_one).
    { apply get_weight_lookup; [auto | lia |].
      cbn [with_weights weights_]. apply lookup_replicate_2.
      unfold Grid.size in Hur. lia. }
    split; [exact Hg|]. now rewrite (has_obstacle_of_weight _ _ _ Hg).
Qed.

Lemma remove_obstacle_sets_one_witness :
  Grid.get_weight
    (after (Grid.remove_obstacle 0)
       (after (Grid.add_obstacle 0) (grid_1x1 d_zero 0))) 0 = Ret d_one.
Proof.
  destruct (remove_obstacle_sets_one (grid_1x1 d_zero 0) 0) as (_ & _ & _ & H & _).
  - unfold is_int. lia.
  - unfold Grid.size. cbn [grid_1x1 weights_ length]. lia.
  - exact H.
Defined.

(** C10: after [add_obstacle(v)] on an in-range cell, [has_obstacle(v)]
    holds and [get_weight(v)] is -1; adding the obstacle a second time
    changes nothing. *)
Theorem add_obstacle_idempotent (g : AbsGrid) (v : Z) :
  is_int v -> 0 <= v < Z.of_nat (Grid.size g) ->
  result (Grid.add_obstacle v) g = Ret tt /\
  Grid.has_obstacle (after (Grid.add_obstacle v) g) v = Ret true /\
  Grid.get_weight (after (Grid.add_obstacle v) g) v = Ret d_minus_one /\
  result (Grid.add_obstacle v) (after (Grid.add_obstacle v) g) = Ret tt /\
  after (Grid.add_obstacle v) (after (Grid.add_obstacle v) g)
    = after (Grid.add_obstacle v) g.
Proof.
  intros Hi Hv. unfold result, after.
  rewrite (add_obstacle_ok g v Hi Hv). cbn [fst snd].
  pose proof (get_weight_updated g v d_minus_one Hi Hv) as H1.
  split; [reflexivity|].
  split; [now rewrite (has_obstacle_of_weight _ _ _ H1)|].
  split; [exact H1|].
  set (g1 := with_weights g (<[Z.to_nat v := d_minus_one]> (weights_ g))).
  assert (Hv1 : 0 <= v < Z.of_nat (Grid.size g1))
    by (unfold g1; now rewrite size_with_weights_insert).
  rewrite (add_obstacle_ok g1 v Hi Hv1). cbn [fst snd].
  split; [reflexivity|].
  unfold g1, with_weights. cbn [graph weights_ pause_action_cost_type_].
  now rewrite list_insert_insert_eq.
Qed.

Lemma add_obstacle_idempotent_witness :
  Grid.has_obstacle (after (Grid.add_obstacle 0) (grid_1x1 d_one 0)) 0 = Ret true /\
  after (Grid.add_obstacle 0) (after (Grid.add_obstacle 0) (grid_1x1 d_one 0))
    = after (Grid.add_obstacle 0) (grid_1x1 d_one 0).
Proof.
  destruct (add_obstacle_idempotent (grid_1x1 d_one 0) 0) as (_ & H1 & _ & _ & H2).
  - unfold is_int. lia.
  - unfold Grid.size. cbn [grid_1x1 weights_ length]. lia.
  - split; [exact H1 | exact H2].
Defined.

(** ** The contract of [find_path] *)

Module SearchFacts.
Import Search SearchProof.

Section Order.
Context {C : Type} `{CostLaws C}.

Lemma cleb_refl (x : C) : cleb x x = true.
Proof. unfold cleb. now rewrite cltb_irrefl. Qed.

Lemma cltb_cleb (x y : C) : cltb x y = true -> cleb x y = true.
Proof.
  intros Hxy. unfold cleb. destruct (cltb y x) eqn:Hyx; [|reflexivity].
  pose proof (cltb_trans _ _ _ Hxy Hyx) as Hxx.
  now rewrite cltb_irrefl in Hxx.
Qed.

Lemma cleb_cltb_trans (x y z : C) :
  cleb x y = true -> cltb y z = true -> cltb x z = true.
Proof.
  intros Hxy Hyz. destruct (cltb x z) eqn:Hxz; [reflexivity|].
  assert (Hzx : cleb z x = true) by (unfold cleb; now rewrite Hxz).
  pose proof (cleb_trans _ _ _ Hzx Hxy) as Hzy.
  unfold cleb in Hzy. now rewrite Hyz in Hzy.
Qed.

Lemma cleb_not_cltb (x y : C) : cleb x y = true -> cltb y x = true -> False.
Proof. unfold cleb. intros Hle Hlt. now rewrite Hlt in Hle. Qed.

End Order.

Section Pop.
Context {C : Type} `{Cost C}.

Lemma extract_min_perm (l : list (entry C)) e r :
  extract_min l = Some (e, r) -> l ≡ₚ e :: r.
Proof.
  revert e r. induction l as [|a l IH]; intros e r; cbn [extract_min].
  - discriminate.
  - destruct (extract_min l) as [[m r']|] eqn:E.
    + specialize (IH m r' eq_refl).
      destruct (better m a); intros [= <- <-].
      * rewrite IH. apply Permutation_swap.
      * reflexivity.
    + intros [= <- <-]. destruct l; [reflexivity|].
      cbn [extract_min] in E. destruct (extract_min l) as [[? ?]|];
        [destruct (better _ _)|]; discriminate.
Qed.

Lemma extract_min_none (l : list (entry C)) : extract_min l = None -> l = [].
Proof.
  destruct l as [|a l]; [reflexivity|]. cbn [extract_min].
  destruct (extract_min l) as [[m r]|]; [destruct (better m a)|]; discriminate.
Qed.

Lemma pop_perm alg (l : list (entry C)) e r :
  pop alg l = Some (e, r) -> l ≡ₚ e :: r.
Proof.
  destruct alg; cbn [pop]; try apply extract_min_perm.
  destruct l; [discriminate|]. now intros [= <- <-].
Qed.

Lemma pop_none alg (l : list (entry C)) : pop alg l = None -> l = [].
Proof.
  destruct alg; cbn [pop]; try apply extract_min_none.
  destruct l; [reflexivity | discriminate].
Qed.

End Pop.

Section Paths.
Context {C : Type}.
Variable G : graph_view C.
Variable start : Z.

Lemma is_path_snoc (q : list Z) (p u : Z) :
  is_path G q -> last q = Some p -> adjacent G p u -> is_path G (q ++ [u]).
Proof.
  induction q as [|a q IH]; [discriminate|].
  destruct q as [|b q].
  - intros _ [= ->] Hadj. cbn. auto.
  - intros [Hab Hq] Hlast Hadj. split; [exact Hab|].
    apply IH; auto.
Qed.

Lemma path_closed (X : Z -> Prop) (p : list Z) (s t : Z) :
  path_between G s t p -> X s ->
  (forall u v, X u -> adjacent G u v -> X v) -> X t.
Proof.
  intros (Hh & Hl & Hp) Hs Hstep. revert s Hh Hs Hl Hp.
  induction p as [|a p IH]; intros s Hh Hs Hl Hp; [discriminate|].
  injection Hh as ->. destruct p as [|b p].
  - injection Hl as <-. exact Hs.
  - destruct Hp as [Hab Hp]. apply (IH b); auto.
    eapply Hstep; eauto.
Qed.

Lemma reconstruct_rooted (par : gmap Z Z) (u : Z) :
  rooted start par u ->
  (forall x p, par !! x = Some p -> adjacent G p x) ->
  exists n q,
    (forall fuel acc, (n <= fuel)%nat ->
       reconstruct_path start fuel par u acc = Some (q ++ acc)) /\
    path_between G start u q.
Proof.
  intros Hroot Hadj.
  assert (Hbase : exists n q,
    (forall fuel acc, (n <= fuel)%nat ->
       reconstruct_path start fuel par start acc = Some (q ++ acc)) /\
    path_between G start start q).
  { exists O, [start]. split.
    - intros [|fuel] acc _; cbn [reconstruct_path]; now rewrite Z.eqb_refl.
    - repeat split. }
  induction Hroot as [|u p Hpar Hroot IH]; [exact Hbase|].
  destruct (Z.eq_dec u start) as [->|Hne]; [exact Hbase|].
  destruct IH as (n & q & Hrun & Hh & Hl & Hp).
  exists (S n), (q ++ [u]). split.
  - intros [|fuel] acc Hle; [lia|]. cbn [reconstruct_path].
    destruct (Z.eqb_spec u start) as [|_]; [contradiction|].
    rewrite Hpar, Hrun by lia. now rewrite <- app_assoc.
  - split; [|split].
    + destruct q; [discriminate | exact Hh].
    + apply last_snoc.
    + eapply is_path_snoc; eauto.
Qed.

End Paths.

Section Trails.
Context {C : Type} `{CostLaws C}.
Variable G : graph_view C.
Variable alg : engine.
Variable start : Z.
Hypothesis Hwf : well_formed G.
Hypothesis Hstart : in_range G start.

Local Abbreviation justifies := (justifies G alg start).
Local Abbreviation trail_cost := (trail_cost alg).
Local Abbreviation trail_nodes := (trail_nodes start).

Lemma edge_length_nonneg (v u : Z) (c : C) :
  in_range G v -> (u, c) ∈ neighbors G v ->
  cleb czero (edge_length alg c) = true.
Proof.
  intros Hv Hin. destruct (Hwf v u c Hv Hin) as [_ Hc].
  destruct alg; cbn [edge_length]; auto using cone_nonneg.
Qed.

Lemma trail_nodes_cons (e : Z * Z * C) (w : trail C) (y : Z) :
  y ∈ trail_nodes (e :: w) <-> y = e.1.2 \/ y ∈ trail_nodes w.
Proof.
  unfold SearchProof.trail_nodes. cbn [map]. rewrite !elem_of_cons. tauto.
Qed.

Lemma trail_nodes_start (w : trail C) : start ∈ trail_nodes w.
Proof. apply list_elem_of_here. Qed.

Lemma justifies_endpoint (s : state C) (u : Z) (w : trail C) :
  justifies s u w -> u ∈ trail_nodes w.
Proof.
  destruct 1; [apply trail_nodes_start|].
  apply trail_nodes_cons. now left.
Qed.

Lemma justifies_nodes_le (s : state C) (u : Z) (w : trail C) :
  g_score s !! start = Some czero ->
  justifies s u w ->
  forall y, y ∈ trail_nodes w ->
    exists gy, g_score s !! y = Some gy /\ cleb gy (trail_cost w) = true.
Proof.
  intros Hzero. induction 1 as [|v u c w gu Hj IH Hv Hin Hnot Hgu Hle]; intros y Hy.
  - apply list_elem_of_singleton in Hy as ->. exists czero.
    split; [exact Hzero | apply cleb_refl].
  - apply trail_nodes_cons in Hy as [->|Hy'].
    + exists gu. split; [exact Hgu | exact Hle].
    + destruct (IH y Hy') as (gy & Hgy & Hle').
      exists gy. split; [exact Hgy|].
      eapply cleb_trans; [exact Hle'|].
      apply cadd_nonneg. eapply edge_length_nonneg; eauto.
Qed.

Lemma justifies_mono (s s' : state C) (u : Z) (w : trail C) :
  (forall y gy, g_score s !! y = Some gy ->
     exists gy', g_score s' !! y = Some gy' /\ cleb gy' gy = true) ->
  justifies s u w -> justifies s' u w.
Proof.
  intros Hmono. induction 1 as [|v u c w gu Hj IH Hv Hin Hnot Hgu Hle].
  - constructor.
  - destruct (Hmono u gu Hgu) as (gu' & Hgu' & Hle').
    econstructor; eauto. eapply cleb_trans; eauto.
Qed.

Lemma justifies_NoDup (s : state C) (u : Z) (w : trail C) :
  justifies s u w -> NoDup (trail_nodes w).
Proof.
  induction 1 as [|v u c w gu Hj IH Hv Hin Hnot Hgu Hle].
  - apply NoDup_singleton.
  - unfold SearchProof.trail_nodes in *. cbn [map fst snd].
    rewrite (Permutation_swap u start). apply NoDup_cons. split; assumption.
Qed.

Lemma justifies_in_range (s : state C) (u : Z) (w : trail C) :
  justifies s u w -> forall y, y ∈ trail_nodes w -> in_range G y.
Proof.
  induction 1 as [|v u c w gu Hj IH Hv Hin Hnot Hgu Hle]; intros y Hy.
  - apply list_elem_of_singleton in Hy as ->. exact Hstart.
  - apply trail_nodes_cons in Hy as [->|Hy']; [|auto].
    apply (Hwf v u c Hv Hin).
Qed.

Lemma justifies_edges (s : state C) (u : Z) (w : trail C) :
  justifies s u w -> Forall (fun e => e ∈ all_edges G) w.
Proof.
  induction 1 as [|v u c w gu Hj IH Hv Hin Hnot Hgu Hle]; constructor; [|exact IH].
  unfold all_edges. apply list_elem_of_bind. exists v. split.
  - apply list_elem_of_fmap. exists (u, c). split; [reflexivity | exact Hin].
  - apply elem_of_seqZ. unfold in_range in Hv. lia.
Qed.

Lemma words_elem (k : nat) (w : trail C) :
  (length w <= k)%nat -> Forall (fun e => e ∈ all_edges G) w -> w ∈ words G k.
Proof.
  revert w. induction k as [|k IH]; intros w Hlen Hall.
  - destruct w; [|cbn in Hlen; lia]. cbn. set_solver.
  - destruct w as [|e w]; cbn [words]; [set_solver|].
    apply list_elem_of_further, list_elem_of_bind. exists e.
    apply Forall_cons in Hall as [He Hall]. split; [|exact He].
    apply list_elem_of_fmap. exists w. split; [reflexivity|].
    apply IH; [cbn in Hlen; lia | exact Hall].
Qed.

Lemma justifies_candidate (s : state C) (u : Z) (w : trail C) :
  justifies s u w -> w ∈ candidates G.
Proof.
  intros Hj. apply words_elem; [|eapply justifies_edges; eauto].
  pose proof (justifies_NoDup s u w Hj) as Hnd.
  pose proof (justifies_in_range s u w Hj) as Hr.
  assert (Hsub : trail_nodes w ⊆+ seqZ 0 (Z.of_nat (graph_size G))).
  { apply NoDup_submseteq; [exact Hnd|].
    intros y Hy. apply elem_of_seqZ. specialize (Hr y Hy).
    unfold in_range in Hr. lia. }
  apply submseteq_length in Hsub.
  rewrite length_seqZ in Hsub.
  unfold SearchProof.trail_nodes in Hsub. cbn [length] in Hsub.
  rewrite length_map in Hsub. lia.
Qed.

End Trails.

Section Counting.

Lemma filter_length_le {A} (P Q : A -> Prop)
    `{forall x, Decision (P x)} `{forall x, Decision (Q x)} (l : list A) :
  (forall x, P x -> Q x) ->
  (length (filter P l) <= length (filter Q l))%nat.
Proof.
  intros HPQ. induction l as [|a l IH]; [reflexivity|].
  rewrite !filter_cons.
  destruct (decide (P a)) as [HP|HP], (decide (Q a)) as [HQ|HQ]; cbn [length];
    try lia.
  exfalso. auto.
Qed.

Lemma filter_length_lt {A} (P Q : A -> Prop)
    `{forall x, Decision (P x)} `{forall x, Decision (Q x)} (l : list A) (x0 : A) :
  (forall x, P x -> Q x) -> x0 ∈ l -> Q x0 -> ~ P x0 ->
  (length (filter P l) < length (filter Q l))%nat.
Proof.
  intros HPQ Hin HQ0 HP0. induction l as [|a l IH]; [inversion Hin|].
  pose proof (filter_length_le P Q l HPQ) as Hle.
  rewrite !filter_cons.
  apply elem_of_cons in Hin as [<-|Hin].
  - destruct (decide (P x0)); [contradiction|].
    destruct (decide (Q x0)); [|contradiction]. cbn [length]. lia.
  - specialize (IH Hin).
    destruct (decide (P a)) as [HP|HP], (decide (Q a)) as [HQ|HQ]; cbn [length];
      try lia.
    exfalso. auto.
Qed.

Lemma sum_list_with_le {A} (f f' : A -> nat) (l : list A) :
  (forall y, y ∈ l -> (f' y <= f y)%nat) ->
  (sum_list_with f' l <= sum_list_with f l)%nat.
Proof.
  induction l as [|a l IH]; intros Hle; [reflexivity|]. cbn [sum_list_with].
  pose proof (Hle a (list_elem_of_here a l)).
  assert (sum_list_with f' l <= sum_list_with f l)%nat
    by (apply IH; intros y Hy; apply Hle; now apply list_elem_of_further).
  lia.
Qed.

Lemma sum_list_with_lt {A} (f f' : A -> nat) (l : list A) (u : A) :
  (forall y, y ∈ l -> (f' y <= f y)%nat) ->
  u ∈ l -> (f' u < f u)%nat ->
  (S (sum_list_with f' l) <= sum_list_with f l)%nat.
Proof.
  induction l as [|a l IH]; intros Hle Hin Hlt; [inversion Hin|].
  cbn [sum_list_with].
  pose proof (Hle a (list_elem_of_here a l)) as Ha.
  assert (Hl : forall y, y ∈ l -> (f' y <= f y)%nat)
    by (intros y Hy; apply Hle; now apply list_elem_of_further).
  apply elem_of_cons in Hin as [<-|Hin].
  - pose proof (sum_list_with_le f f' l Hl). lia.
  - specialize (IH Hl Hin Hlt). lia.
Qed.

Lemma sum_list_with_pointwise {A} (f f' : A -> nat) (l : list A) :
  (forall y, f' y = f y) -> sum_list_with f' l = sum_list_with f l.
Proof.
  intros Heq. induction l as [|a l IH]; [reflexivity|].
  cbn [sum_list_with]. now rewrite Heq, IH.
Qed.

End Counting.

Section Relax.
Context {C : Type} `{CostLaws C}.
Variable G : graph_view C.
Variable alg : engine.
Variables start goal : Z.
Hypothesis Hwf : well_formed G.
Hypothesis Hstart : in_range G start.

Local Abbreviation invariant := (invariant G alg start).
Local Abbreviation justifies := (justifies G alg start).
Local Abbreviation trail_cost := (trail_cost alg).
Local Abbreviation trail_nodes := (trail_nodes start).
Local Abbreviation update := (update G alg goal).
Local Abbreviation relax := (relax G alg goal).
Local Abbreviation rooted := (rooted start).
Local Abbreviation rooted_avoiding := (rooted_avoiding start).

Lemma relax_unfold (s : state C) (v : Z) (gv : C) (u : Z) (c : C) :
  relax v gv s (u, c) =
    if improves alg s u (cadd gv (edge_length alg c))
    then update s v u (cadd gv (edge_length alg c))
    else s.
Proof. reflexivity. Qed.

Lemma improves_improving (s : state C) (u : Z) (g : C) :
  improves alg s u g = true ->
  improving s u g /\ (alg = Dijkstra -> u ∉ closed s).
Proof.
  unfold improves, improving. destruct alg.
  - intros Hb%bool_decide_eq_true. split; [now left | discriminate].
  - intros [Hc%bool_decide_eq_true Hg]%andb_true_iff. split; [|auto].
    destruct (g_score s !! u); [right; eauto | now left].
  - intros Hg. split; [|discriminate].
    destruct (g_score s !! u); [right; eauto | now left].
Qed.

Lemma not_improves_seen (s : state C) (u : Z) (g : C) :
  invariant s -> improves alg s u g = false -> seen s u.
Proof.
  intros Hinv. unfold improves, seen. destruct alg.
  - intros Hb%bool_decide_eq_false.
    destruct (g_score s !! u); [eauto | contradiction].
  - intros [Hc%bool_decide_eq_false | Hg]%andb_false_iff.
    + apply (inv_closed _ _ _ _ Hinv).
      destruct (decide (u ∈ closed s)); [assumption | contradiction].
    + destruct (g_score s !! u); [eauto | discriminate].
  - intros Hg. destruct (g_score s !! u); [eauto | discriminate].
Qed.

Lemma improving_facts (s : state C) (v : Z) (gv : C) (u : Z) (c : C) :
  invariant s -> g_score s !! v = Some gv ->
  in_range G v -> (u, c) ∈ neighbors G v ->
  improving s u (cadd gv (edge_length alg c)) ->
  u <> start /\ u <> v /\ in_range G u /\
  cleb gv (cadd gv (edge_length alg c)) = true /\
  exists wv, justifies s v wv /\ trail_cost wv = gv /\ u ∉ trail_nodes wv.
Proof.
  intros Hinv Hgv Hv Hin Himp.
  destruct (inv_ghost _ _ _ _ Hinv v gv Hgv) as (wv & Hj & Hcost).
  assert (Hle : cleb gv (cadd gv (edge_length alg c)) = true).
  { apply cadd_nonneg. eapply edge_length_nonneg; eauto. }
  assert (Hnot : u ∉ trail_nodes wv).
  { intros Hu.
    destruct (justifies_nodes_le G alg start Hwf s v wv
                (inv_start _ _ _ _ Hinv) Hj u Hu) as (gy & Hgy & Hley).
    rewrite Hcost in Hley.
    destruct Himp as [Hnone | (old & Hold & Hlt)]; [congruence|].
    assert (old = gy) by congruence. subst old.
    eapply cleb_not_cltb; [|exact Hlt].
    eapply cleb_trans; eauto. }
  split; [|split; [|split; [|split]]].
  - intros ->. apply Hnot, trail_nodes_start.
  - intros ->. apply Hnot. eapply justifies_endpoint; eauto.
  - apply (Hwf v u c Hv Hin).
  - exact Hle.
  - eauto.
Qed.

Lemma update_mono (s : state C) (v u : Z) (g : C) :
  improving s u g ->
  forall y gy, g_score s !! y = Some gy ->
    exists gy', g_score (update s v u g) !! y = Some gy' /\ cleb gy' gy = true.
Proof.
  intros Himp y gy Hgy. cbn [SearchProof.update g_score].
  destruct (decide (u = y)) as [->|Hne].
  - rewrite lookup_insert_eq. exists g. split; [reflexivity|].
    destruct Himp as [Hnone | (old & Hold & Hlt)]; [congruence|].
    assert (old = gy) by congruence. subst old. now apply cltb_cleb.
  - rewrite lookup_insert_ne by exact Hne. exists gy.
    split; [exact Hgy | apply cleb_refl].
Qed.

Lemma rooted_avoiding_insert (par : gmap Z Z) (x v y : Z) :
  rooted_avoiding par x y -> rooted (<[x := v]> par) y.
Proof.
  induction 1 as [|u p Hne Hpar Hav IH]; [constructor|].
  apply rooted_step with p; [|exact IH].
  rewrite lookup_insert_ne by auto. exact Hpar.
Qed.

Lemma rooted_avoids (s : state C) (x y : Z) (gy : C) :
  invariant s -> rooted (parent s) y -> g_score s !! y = Some gy ->
  (g_score s !! x = None \/
   exists gx, g_score s !! x = Some gx /\ cltb gy gx = true) ->
  rooted_avoiding (parent s) x y.
Proof.
  intros Hinv Hroot. revert gy.
  induction Hroot as [|u p Hpar Hroot IH]; intros gy Hgy Hx.
  - constructor. intros <-.
    rewrite (inv_start _ _ _ _ Hinv) in Hgy. injection Hgy as <-.
    destruct Hx as [Hnone | (gx & Hgx & Hlt)].
    + rewrite (inv_start _ _ _ _ Hinv) in Hnone. discriminate.
    + rewrite (inv_start _ _ _ _ Hinv) in Hgx. injection Hgx as <-.
      now rewrite cltb_irrefl in Hlt.
  - destruct (inv_parent _ _ _ _ Hinv u p Hpar) as (gu & gp & Hgu & Hgp & Hle & _).
    assert (gu = gy) by congruence. subst gu.
    apply avoiding_step with p; [|exact Hpar|].
    + intros ->. destruct Hx as [Hnone | (gx & Hgx & Hlt)]; [congruence|].
      assert (gx = gy) by congruence. subst gx.
      now rewrite cltb_irrefl in Hlt.
    + apply (IH gp Hgp).
      destruct Hx as [Hnone | (gx & Hgx & Hlt)]; [now left | right].
      exists gx. split; [exact Hgx|]. eapply cleb_cltb_trans; eauto.
Qed.

Lemma seen_update (s : state C) (v u : Z) (g : C) (y : Z) :
  seen (update s v u g) y <-> y = u \/ seen s y.
Proof.
  unfold seen. cbn [SearchProof.update g_score].
  destruct (decide (u = y)) as [->|Hne].
  - rewrite lookup_insert_eq. split; eauto.
  - rewrite lookup_insert_ne by exact Hne. split; [auto|].
    intros [->|Hy]; [contradiction | exact Hy].
Qed.

Lemma update_invariant (s : state C) (v : Z) (gv : C) (u : Z) (c : C) :
  invariant s -> g_score s !! v = Some gv ->
  in_range G v -> (u, c) ∈ neighbors G v ->
  improving s u (cadd gv (edge_length alg c)) ->
  invariant (update s v u (cadd gv (edge_length alg c))).
Proof.
  intros Hinv Hgv Hv Hin Himp.
  destruct (improving_facts s v gv u c Hinv Hgv Hv Hin Himp)
    as (Hus & Huv & Hur & Hle & wv & Hj & Hcost & Hnot).
  set (g := cadd gv (edge_length alg c)) in *.
  pose proof (update_mono s v u g Himp) as Hmono.
  assert (Hroot_v : rooted (<[u := v]> (parent s)) v).
  { apply rooted_avoiding_insert.
    apply (rooted_avoids s u v gv Hinv); [|exact Hgv|].
    - apply (inv_rooted _ _ _ _ Hinv). unfold seen. eauto.
    - destruct Himp as [Hnone | (old & Hold & Hlt)]; [now left | right].
      exists old. split; [exact Hold|]. eapply cleb_cltb_trans; eauto. }
  assert (Hroot_u : rooted (<[u := v]> (parent s)) u).
  { apply rooted_step with v; [apply lookup_insert_eq | exact Hroot_v]. }
  split.
  - intros y [->|Hy]%seen_update; [exact Hur|].
    now apply (inv_range _ _ _ _ Hinv).
  - cbn [SearchProof.update g_score]. rewrite lookup_insert_ne by exact Hus.
    apply (inv_start _ _ _ _ Hinv).
  - intros e He. cbn [SearchProof.update open] in He.
    apply seen_update.
    apply elem_of_app in He as [He | ->%list_elem_of_singleton].
    + right. now apply (inv_open _ _ _ _ Hinv).
    + now left.
  - intros y Hy. cbn [SearchProof.update closed] in Hy.
    apply seen_update. right. now apply (inv_closed _ _ _ _ Hinv).
  - intros y p Hpar. cbn [SearchProof.update parent g_score] in *.
    destruct (decide (u = y)) as [<-|Hne].
    + rewrite lookup_insert_eq in Hpar. injection Hpar as <-.
      exists g, gv. rewrite lookup_insert_eq.
      rewrite lookup_insert_ne by exact Huv.
      repeat split; auto. now exists c.
    + rewrite lookup_insert_ne in Hpar by exact Hne.
      destruct (inv_parent _ _ _ _ Hinv y p Hpar)
        as (gy & gp & Hgy & Hgp & Hlep & Hadj).
      destruct (Hmono p gp Hgp) as (gp' & Hgp' & Hlep').
      exists gy, gp'. rewrite lookup_insert_ne by exact Hne.
      repeat split; auto. eapply cleb_trans; eauto.
  - intros y Hy. cbn [SearchProof.update parent].
    assert (Hall : forall z, rooted (parent s) z -> rooted (<[u := v]> (parent s)) z).
    { induction 1 as [|z p Hpar Hroot IH]; [constructor|].
      destruct (decide (u = z)) as [<-|Hne]; [exact Hroot_u|].
      apply rooted_step with p; [|exact IH].
      now rewrite lookup_insert_ne by exact Hne. }
    apply seen_update in Hy as [->|Hy]; [exact Hroot_u|].
    apply Hall. now apply (inv_rooted _ _ _ _ Hinv).
  - intros y gy Hgy. cbn [SearchProof.update g_score] in Hgy.
    destruct (decide (u = y)) as [<-|Hne].
    + rewrite lookup_insert_eq in Hgy. injection Hgy as <-.
      exists ((v, u, c) :: wv). split.
      * apply justifies_cons with g; auto.
        -- eapply justifies_mono; eauto.
        -- cbn [SearchProof.update g_score]. apply lookup_insert_eq.
        -- rewrite Hcost. apply cleb_refl.
      * cbn [SearchProof.trail_cost foldr snd].
        fold (SearchProof.trail_cost alg wv). now rewrite Hcost.
    + rewrite lookup_insert_ne in Hgy by exact Hne.
      destruct (inv_ghost _ _ _ _ Hinv y gy Hgy) as (w & Hw & Hc).
      exists w. split; [|exact Hc]. eapply justifies_mono; eauto.
Qed.

Lemma rank_update_lt (s : state C) (v : Z) (gv : C) (u : Z) (c : C) :
  invariant s -> g_score s !! v = Some gv ->
  in_range G v -> (u, c) ∈ neighbors G v ->
  improving s u (cadd gv (edge_length alg c)) ->
  (rank G alg (update s v u (cadd gv (edge_length alg c))) u < rank G alg s u)%nat.
Proof.
  intros Hinv Hgv Hv Hin Himp.
  pose proof (update_invariant s v gv u c Hinv Hgv Hv Hin Himp) as Hinv'.
  set (g := cadd gv (edge_length alg c)) in *.
  assert (Hg' : g_score (update s v u g) !! u = Some g)
    by (cbn [SearchProof.update g_score]; apply lookup_insert_eq).
  destruct (inv_ghost _ _ _ _ Hinv' u g Hg') as (w0 & Hj0 & Hc0).
  apply (justifies_candidate G alg start Hwf Hstart) in Hj0.
  unfold rank. rewrite Hg'.
  destruct Himp as [-> | (old & -> & Hlt)].
  - pose proof (length_filter
      (fun w => cltb (trail_cost w) g = true) (candidates G)). lia.
  - apply filter_length_lt with w0; auto.
    + intros w Hw. eapply cltb_trans; eauto.
    + now rewrite Hc0.
    + rewrite Hc0, cltb_irrefl. discriminate.
Qed.

Lemma measure_update (s : state C) (v : Z) (gv : C) (u : Z) (c : C) :
  invariant s -> g_score s !! v = Some gv ->
  in_range G v -> (u, c) ∈ neighbors G v ->
  improving s u (cadd gv (edge_length alg c)) ->
  (S (measure G alg (update s v u (cadd gv (edge_length alg c))))
     <= measure G alg s)%nat.
Proof.
  intros Hinv Hgv Hv Hin Himp.
  pose proof (rank_update_lt s v gv u c Hinv Hgv Hv Hin Himp) as Hlt.
  destruct (improving_facts s v gv u c Hinv Hgv Hv Hin Himp)
    as (_ & _ & Hur & _).
  set (g := cadd gv (edge_length alg c)) in *.
  unfold measure.
  assert (Hsum : (S (sum_list_with (rank G alg (update s v u g))
                       (seqZ 0 (Z.of_nat (graph_size G))))
                  <= sum_list_with (rank G alg s)
                       (seqZ 0 (Z.of_nat (graph_size G))))%nat).
  { apply sum_list_with_lt with u; [| |exact Hlt].
    - intros y _. destruct (decide (u = y)) as [<-|Hne]; [lia|].
      unfold rank. cbn [SearchProof.update g_score].
      now rewrite lookup_insert_ne by exact Hne.
    - apply elem_of_seqZ. unfold in_range in Hur. lia. }
  cbn [SearchProof.update open]. rewrite length_app. cbn [length]. lia.
Qed.

Lemma update_frontier (s : state C) (v u : Z) (g : C) (x : Z) :
  (alg = Dijkstra -> u ∉ closed s) ->
  frontier_complete_but G alg goal x s ->
  frontier_complete_but G alg goal x (update s v u g).
Proof.
  intros Hclosed Hfc y Hyx Hy.
  destruct (decide (y = u)) as [->|Hne].
  - left. exists (mk_entry (priority G alg goal u g) g u).
    split; [|split; [reflexivity|]].
    + cbn [SearchProof.update open]. apply elem_of_app. right.
      apply list_elem_of_singleton. reflexivity.
    + unfold fresh. cbn [SearchProof.update g_score closed node dist].
      destruct alg; [reflexivity | |].
      * apply bool_decide_eq_true. auto.
      * now rewrite lookup_insert_eq, cltb_irrefl.
  - apply seen_update in Hy as [->|Hy]; [contradiction|].
    destruct (Hfc y Hyx Hy) as [(e & He & Hnode & Hfresh) | [Hg Hset]].
    + left. exists e. split; [|split; [exact Hnode|]].
      * cbn [SearchProof.update open]. apply elem_of_app. now left.
      * unfold fresh in *. cbn [SearchProof.update g_score closed].
        destruct alg; auto.
        rewrite lookup_insert_ne by (rewrite Hnode; auto). exact Hfresh.
    + right. split; [exact Hg|]. intros z cz Hz.
      apply seen_update. right. eauto.
Qed.

Lemma relax_spec (s : state C) (v : Z) (gv : C) (e : Z * C) :
  invariant s -> g_score s !! v = Some gv ->
  in_range G v -> e ∈ neighbors G v ->
  invariant (relax v gv s e) /\
  g_score (relax v gv s e) !! v = Some gv /\
  closed (relax v gv s e) = closed s /\
  (forall y, seen s y -> seen (relax v gv s e) y) /\
  seen (relax v gv s e) e.1 /\
  (measure G alg (relax v gv s e) <= measure G alg s)%nat /\
  (forall x, frontier_complete_but G alg goal x s ->
             frontier_complete_but G alg goal x (relax v gv s e)).
Proof.
  destruct e as [u c]. intros Hinv Hgv Hv Hin. rewrite relax_unfold.
  cbn [fst].
  destruct (improves alg s u (cadd gv (edge_length alg c))) eqn:Himp.
  - apply improves_improving in Himp as [Himp Hcl].
    destruct (improving_facts s v gv u c Hinv Hgv Hv Hin Himp)
      as (_ & Huv & _).
    split; [now apply update_invariant|].
    split; [cbn [SearchProof.update g_score];
            now rewrite lookup_insert_ne by exact Huv|].
    split; [reflexivity|].
    split; [intros y Hy; apply seen_update; now right|].
    split; [apply seen_update; now left|].
    split; [pose proof (measure_update s v gv u c Hinv Hgv Hv Hin Himp); lia|].
    intros x. now apply update_frontier.
  - split; [exact Hinv|]. split; [exact Hgv|]. split; [reflexivity|].
    split; [auto|]. split; [eapply not_improves_seen; eauto|].
    split; [lia | auto].
Qed.

Lemma relax_fold (l : list (Z * C)) (s : state C) (v : Z) (gv : C) :
  (forall e, e ∈ l -> e ∈ neighbors G v) ->
  invariant s -> g_score s !! v = Some gv -> in_range G v ->
  invariant (foldl (relax v gv) s l) /\
  g_score (foldl (relax v gv) s l) !! v = Some gv /\
  closed (foldl (relax v gv) s l) = closed s /\
  (forall y, seen s y -> seen (foldl (relax v gv) s l) y) /\
  (forall e, e ∈ l -> seen (foldl (relax v gv) s l) e.1) /\
  (measure G alg (foldl (relax v gv) s l) <= measure G alg s)%nat /\
  (forall x, frontier_complete_but G alg goal x s ->
             frontier_complete_but G alg goal x (foldl (relax v gv) s l)).
Proof.
  revert s. induction l as [|e l IH]; intros s Hsub Hinv Hgv Hv.
  - cbn [foldl]. split; [exact Hinv|]. split; [exact Hgv|].
    split; [reflexivity|]. split; [auto|].
    split; [intros e He; inversion He|]. split; [lia | auto].
  - cbn [foldl].
    destruct (relax_spec s v gv e Hinv Hgv Hv (Hsub e (list_elem_of_here e l)))
      as (Hinv1 & Hgv1 & Hcl1 & Hseen1 & Hse1 & Hm1 & Hfc1).
    destruct (IH (relax v gv s e)
                (fun e' He' => Hsub e' (list_elem_of_further _ _ _ He'))
                Hinv1 Hgv1 Hv)
      as (Hinv2 & Hgv2 & Hcl2 & Hseen2 & Hse2 & Hm2 & Hfc2).
    split; [exact Hinv2|]. split; [exact Hgv2|].
    split; [congruence|]. split; [auto|].
    split; [|split; [lia | auto]].
    intros e' [->|He']%elem_of_cons; auto.
Qed.

End Relax.

Section Step.
Context {C : Type} `{CostLaws C}.
Variable G : graph_view C.
Variable alg : engine.
Variables start goal : Z.
Hypothesis Hwf : well_formed G.
Hypothesis Hstart : in_range G start.

Local Abbreviation invariant := (invariant G alg start).
Local Abbreviation frontier_complete := (frontier_complete G alg goal).
Local Abbreviation frontier_complete_but := (frontier_complete_but G alg goal).
Local Abbreviation measure := (measure G alg).
Local Abbreviation step := (step G alg goal).
Local Abbreviation search := (search G alg start goal).

Lemma invariant_same_scores (s s' : state C) :
  g_score s' = g_score s -> parent s' = parent s ->
  (forall e, e ∈ open s' -> e ∈ open s) ->
  (forall u, u ∈ closed s' -> seen s u) ->
  invariant s -> invariant s'.
Proof.
  intros Hg Hp Ho Hc Hinv.
  assert (Hseen : forall u, seen s' u <-> seen s u)
    by (intros u; unfold seen; now rewrite Hg).
  split.
  - intros u Hu%Hseen. now apply (inv_range _ _ _ _ Hinv).
  - rewrite Hg. apply (inv_start _ _ _ _ Hinv).
  - intros e He%Ho. apply Hseen. now apply (inv_open _ _ _ _ Hinv).
  - intros u Hu%Hc. now apply Hseen.
  - intros u p. rewrite Hp, Hg. apply (inv_parent _ _ _ _ Hinv).
  - intros u Hu%Hseen. rewrite Hp. now apply (inv_rooted _ _ _ _ Hinv).
  - intros u gu. rewrite Hg. intros Hgu.
    destruct (inv_ghost _ _ _ _ Hinv u gu Hgu) as (w & Hw & Hcost).
    exists w. split; [|exact Hcost].
    apply (justifies_mono G alg start s s'); [|exact Hw].
    intros y gy Hgy. exists gy. rewrite Hg. split; [exact Hgy | apply cleb_refl].
Qed.

Lemma measure_same_scores (s s' : state C) :
  g_score s' = g_score s ->
  (measure s' + length (open s) = measure s + length (open s'))%nat.
Proof.
  intros Hg. unfold SearchProof.measure.
  assert (Hrank : forall y, rank G alg s' y = rank G alg s y)
    by (intros y; unfold rank; now rewrite Hg).
  rewrite (sum_list_with_pointwise _ _ _ Hrank). lia.
Qed.

Lemma fresh_same_scores (s s' : state C) (e : entry C) :
  g_score s' = g_score s -> closed s' = closed s ->
  fresh alg s' e = fresh alg s e.
Proof. intros Hg Hc. unfold fresh. now rewrite Hg, Hc. Qed.

Lemma step_continue (s s' : state C) :
  invariant s -> frontier_complete s -> step s = Continue s' ->
  invariant s' /\ frontier_complete s' /\ (measure s' < measure s)%nat.
Proof.
  intros Hinv Hfc. unfold Search.step.
  destruct (pop alg (open s)) as [[e rest]|] eqn:Hpop; [|discriminate].
  apply pop_perm in Hpop.
  set (s1 := with_open s rest).
  assert (Hrest : forall e', e' ∈ open s1 -> e' ∈ open s).
  { intros e' He'. rewrite Hpop. now apply list_elem_of_further. }
  assert (Hinv1 : invariant s1).
  { apply (invariant_same_scores s s1); auto.
    intros u Hu. exact (inv_closed _ _ _ _ Hinv u Hu). }
  assert (Hm1 : (S (measure s1) = measure s)%nat).
  { pose proof (measure_same_scores s s1 eq_refl) as Hm.
    apply Permutation_length in Hpop. cbn [length] in Hpop.
    change (open s1) with rest in Hm. lia. }
  assert (Hlive : forall y e', e' ∈ open s -> node e' = y ->
            fresh alg s e' = true -> e' = e \/ e' ∈ rest).
  { intros y e' He' _ _. rewrite Hpop in He'.
    now apply elem_of_cons in He'. }
  destruct (fresh alg s1 e) eqn:Hfresh.
  - destruct (Z.eqb_spec (node e) goal) as [|Hgoal]; [discriminate|].
    intros [= <-].
    set (v := node e) in *.
    assert (Hseen_v : seen s v).
    { apply (inv_open _ _ _ _ Hinv). rewrite Hpop. apply list_elem_of_here. }
    destruct Hseen_v as [gv Hgv].
    assert (Hv : in_range G v).
    { apply (inv_range _ _ _ _ Hinv). unfold seen. eauto. }
    unfold expand. change (g_score s1) with (g_score s). rewrite Hgv.
    set (s2 := close alg v s1).
    assert (Hg2 : g_score s2 = g_score s) by (unfold s2, close; now destruct alg).
    assert (Hinv2 : invariant s2).
    { apply (invariant_same_scores s1 s2); auto.
      - unfold s2, close; now destruct alg.
      - unfold s2, close; now destruct alg.
      - intros u. unfold s2, close. destruct alg; cbn [closed with_open];
          try apply (inv_closed _ _ _ _ Hinv).
        intros [->%elem_of_singleton | Hu]%elem_of_union.
        + unfold seen. cbn [with_open g_score]. eauto.
        + now apply (inv_closed _ _ _ _ Hinv). }
    assert (Hm2 : measure s2 = measure s1).
    { pose proof (measure_same_scores s1 s2 Hg2) as Hm.
      assert (open s2 = open s1) as Ho by (unfold s2, close; now destruct alg).
      rewrite Ho in Hm. lia. }
    assert (Hfc2 : frontier_complete_but v s2).
    { intros y Hyv Hy.
      assert (Hy' : seen s y) by (unfold seen in *; now rewrite Hg2 in Hy).
      destruct (Hfc y Hy') as [(e' & He' & Hnode & Hfr) | [Hg Hset]].
      - left. exists e'. split; [|split; [exact Hnode|]].
        + destruct (Hlive y e' He' Hnode Hfr) as [->|Hin];
            [exfalso; apply Hyv; symmetry; exact Hnode|].
          unfold s2, close; now destruct alg.
        + unfold fresh in *. unfold s2, close.
          destruct alg; cbn [closed g_score with_open]; auto.
          apply bool_decide_eq_true. apply bool_decide_eq_true in Hfr.
          rewrite Hnode in Hfr |- *.
          intros [Hy1%elem_of_singleton | Hy2]%elem_of_union; auto.
      - right. split; [exact Hg|]. intros z cz Hz.
        unfold seen. rewrite Hg2. now apply (Hset z cz). }
    assert (Hgv2 : g_score s2 !! v = Some gv) by now rewrite Hg2.
    destruct (relax_fold G alg start goal Hwf Hstart (neighbors G v) s2 v gv
                (fun e' He' => He') Hinv2 Hgv2 Hv)
      as (Hinv3 & Hgv3 & Hcl3 & Hseen3 & Hnb3 & Hm3 & Hfc3).
    split; [exact Hinv3|]. split; [|lia].
    intros y Hy. destruct (decide (y = v)) as [->|Hne].
    + right. split; [exact Hgoal|]. intros z cz Hz.
      apply (Hnb3 (z, cz) Hz).
    + now apply (Hfc3 v Hfc2).
  - intros [= <-]. split; [exact Hinv1|]. split; [|lia].
    intros y Hy.
    destruct (Hfc y Hy) as [(e' & He' & Hnode & Hfr) | Hset]; [left | now right].
    exists e'. split; [|split; [exact Hnode | exact Hfr]].
    destruct (Hlive y e' He' Hnode Hfr) as [->|Hin]; [|exact Hin].
    rewrite (fresh_same_scores s s1) in Hfresh by reflexivity. congruence.
Qed.

Lemma step_exhausted (s : state C) :
  invariant s -> frontier_complete s -> step s = Exhausted ->
  ~ path_exists G start goal.
Proof.
  intros Hinv Hfc. unfold Search.step.
  destruct (pop alg (open s)) as [[e rest]|] eqn:Hpop.
  { destruct (fresh alg _ e); [destruct (node e =? goal)|]; discriminate. }
  intros _ (p & Hp). apply pop_none in Hpop.
  assert (Hsettled : forall u, seen s u -> settled G goal s u).
  { intros u Hu. destruct (Hfc u Hu) as [(e & He & _) | Hset]; [|exact Hset].
    rewrite Hpop in He. inversion He. }
  assert (Hgoal : seen s goal).
  { apply (path_closed G (seen s) p start goal Hp).
    - unfold seen. rewrite (inv_start _ _ _ _ Hinv). eauto.
    - intros u v Hu [c Hc]. destruct (Hsettled u Hu) as [_ Hnb]. eauto. }
  destruct (Hsettled goal Hgoal) as [Hne _]. now apply Hne.
Qed.

Lemma step_reached (s s1 : state C) :
  invariant s -> step s = Reached s1 ->
  exists n q,
    (forall fuel, (n <= fuel)%nat ->
       reconstruct_path start fuel (parent s1) goal [] = Some q) /\
    path_between G start goal q.
Proof.
  intros Hinv. unfold Search.step.
  destruct (pop alg (open s)) as [[e rest]|] eqn:Hpop; [|discriminate].
  apply pop_perm in Hpop.
  destruct (fresh alg _ e); [|discriminate].
  destruct (Z.eqb_spec (node e) goal) as [Hgoal|]; [|discriminate].
  intros [= <-]. cbn [with_open parent].
  assert (Hseen : seen s goal).
  { rewrite <- Hgoal. apply (inv_open _ _ _ _ Hinv).
    rewrite Hpop. apply list_elem_of_here. }
  destruct (reconstruct_rooted G start (parent s) goal) as (n & q & Hrun & Hq).
  - now apply (inv_rooted _ _ _ _ Hinv).
  - intros x p Hpar.
    now destruct (inv_parent _ _ _ _ Hinv x p Hpar) as (_ & _ & _ & _ & _ & Hadj).
  - exists n, q. split; [|exact Hq].
    intros fuel Hle. rewrite (Hrun fuel [] Hle). now rewrite app_nil_r.
Qed.

Lemma search_terminates (n : nat) (s : state C) :
  (measure s < n)%nat -> invariant s -> frontier_complete s ->
  exists fuel0 p,
    (forall fuel, (fuel0 <= fuel)%nat -> search fuel s = Some p) /\
    (p = [] <-> ~ path_exists G start goal) /\
    (p <> [] -> path_between G start goal p).
Proof.
  revert s. induction n as [|n IH]; intros s Hlt Hinv Hfc; [lia|].
  destruct (step s) as [|s1|s'] eqn:Hstep.
  - exists 1%nat, []. split; [|split].
    + intros [|fuel] Hle; [lia|]. cbn [Search.search]. now rewrite Hstep.
    + split; [|reflexivity]. intros _. eapply step_exhausted; eauto.
    + intros Hne. now contradiction Hne.
  - destruct (step_reached s s1 Hinv Hstep) as (n0 & q & Hrun & Hq).
    assert (Hne : q <> []).
    { destruct Hq as (Hh & _). intros ->. discriminate. }
    exists (S n0), q. split; [|split].
    + intros [|fuel] Hle; [lia|]. cbn [Search.search]. rewrite Hstep.
      apply Hrun. lia.
    + split; [intros ->; now contradiction Hne|].
      intros Hno. exfalso. apply Hno. now exists q.
    + intros _. exact Hq.
  - destruct (step_continue s s' Hinv Hfc Hstep) as (Hinv' & Hfc' & Hm).
    destruct (IH s' ltac:(lia) Hinv' Hfc') as (fuel0 & p & Hrun & Hp).
    exists (S fuel0), p. split; [|exact Hp].
    intros [|fuel] Hle; [lia|]. cbn [Search.search]. rewrite Hstep.
    apply Hrun. lia.
Qed.

Lemma init_invariant :
  invariant (init G alg start goal) /\ frontier_complete (init G alg start goal).
Proof.
  assert (Hseen : forall u, seen (init G alg start goal) u -> u = start).
  { intros u [g Hg]. cbn [init g_score] in Hg.
    apply lookup_singleton_Some in Hg as [Hu _]. now symmetry. }
  split; [split|].
  - intros u ->%Hseen. exact Hstart.
  - apply lookup_singleton_eq.
  - intros e ->%list_elem_of_singleton. cbn [node]. unfold seen.
    cbn [init g_score]. rewrite lookup_singleton_eq. eauto.
  - intros u Hu. cbn [init closed] in Hu. set_solver.
  - intros u p Hpar. cbn [init parent] in Hpar.
    now rewrite lookup_empty in Hpar.
  - intros u ->%Hseen. constructor.
  - intros u gu Hgu. cbn [init g_score] in Hgu.
    apply lookup_singleton_Some in Hgu as [<- <-].
    exists []. split; [constructor | reflexivity].
  - intros u ->%Hseen. left.
    exists (mk_entry (priority G alg goal start czero) czero start).
    split; [apply list_elem_of_here|]. split; [reflexivity|].
    unfold fresh. cbn [init g_score closed node dist].
    destruct alg; [reflexivity | |].
    + apply bool_decide_eq_true. set_solver.
    + now rewrite lookup_singleton_eq, cltb_irrefl.
Qed.

End Step.

Section SameVertex.
Context {C : Type} `{CostLaws C}.

Lemma find_path_same_vertex (G : graph_view C) (alg : engine) (v : Z) (fuel : nat) :
  find_path G alg v v (S fuel) = Some [v].
Proof.
  unfold find_path. cbn [Search.search].
  assert (Hstep : step G alg v (init G alg v v)
                  = Reached (with_open (init G alg v v) [])).
  { unfold Search.step.
    assert (Hpop : pop alg (open (init G alg v v))
                   = Some (mk_entry (priority G alg v v czero) czero v, [])).
    { destruct alg; reflexivity. }
    rewrite Hpop. cbn [node]. rewrite Z.eqb_refl.
    assert (Hfresh : fresh alg (with_open (init G alg v v) [])
              (mk_entry (priority G alg v v czero) czero v) = true).
    { unfold fresh. cbn [init with_open g_score closed node dist].
      destruct alg; [reflexivity | |].
      - apply bool_decide_eq_true. set_solver.
      - now rewrite lookup_singleton_eq, cltb_irrefl. }
    now rewrite Hfresh. }
  rewrite Hstep. cbn [reconstruct_path]. now rewrite Z.eqb_refl.
Qed.

End SameVertex.

End SearchFacts.

Global Instance Z_cost_laws : CostLaws Z.
Proof.
  split; unfold cleb; cbn [cltb cadd czero cone Z_cost].
  - apply Z.ltb_irrefl.
  - intros x y z Hxy%Z.ltb_lt Hyz%Z.ltb_lt. apply Z.ltb_lt. lia.
  - intros x y z Hxy%negb_true_iff%Z.ltb_ge Hyz%negb_true_iff%Z.ltb_ge.
    apply negb_true_iff, Z.ltb_ge. lia.
  - intros x c Hc%negb_true_iff%Z.ltb_ge. apply negb_true_iff, Z.ltb_ge. lia.
  - reflexivity.
Qed.

Global Instance Qc_cost_laws : CostLaws Qc.
Proof.
  split; unfold cleb; cbn [cltb cadd czero cone Qc_cost].
  - intros x. apply bool_decide_eq_false. apply (irreflexivity Qclt).
  - intros x y z Hxy%bool_decide_eq_true Hyz%bool_decide_eq_true.
    apply bool_decide_eq_true. eapply Qclt_trans; eauto.
  - intros x y z Hxy%negb_true_iff%bool_decide_eq_false%Qcle_ngt
                 Hyz%negb_true_iff%bool_decide_eq_false%Qcle_ngt.
    apply negb_true_iff, bool_decide_eq_false, Qcle_ngt.
    eapply Qcle_trans; eauto.
  - intros x c Hc%negb_true_iff%bool_decide_eq_false%Qcle_ngt.
    apply negb_true_iff, bool_decide_eq_false, Qcle_ngt.
    rewrite <- (Qcplus_0_r x) at 1. now apply Qcplus_le_mono_l.
  - reflexivity.
Qed.

Example scenario_a_star : Search.find_path scenario_graph AStar 0 3 10 = Some [0; 1; 2; 3].
Proof. vm_compute. reflexivity. Qed.

Example scenario_dijkstra : Search.find_path scenario_graph Dijkstra 0 3 10 = Some [0; 1; 2; 3].
Proof. vm_compute. reflexivity. Qed.

Example scenario_bfs : Search.find_path scenario_graph BFS 0 3 10 = Some [0; 2; 3].
Proof. vm_compute. reflexivity. Qed.

Example scenario_rational :
  Search.find_path scenario_graph_Qc AStar 0 3 10 = Some [0; 1; 2; 3].
Proof. vm_compute. reflexivity. Qed.

Example islands_no_path : Search.find_path two_islands Dijkstra 0 1 5 = Some [].
Proof. vm_compute. reflexivity. Qed.

Lemma scenario_graph_Qc_well_formed : well_formed scenario_graph_Qc.
Proof.
  intros v u c Hv Hin. unfold in_range in *.
  cbn [scenario_graph_Qc graph_size neighbors] in *.
  assert (Hcase : v = 0 \/ v = 1 \/ v = 2 \/ v = 3) by lia.
  destruct Hcase as [-> | [-> | [-> | ->]]]; cbn in Hin;
    repeat (apply elem_of_cons in Hin as [Heq|Hin];
            [injection Heq as -> ->; split; [lia | reflexivity]|]);
    inversion Hin.
Qed.

(** C2: for every well-formed graph, every engine (BFS, Dijkstra, A-star)
    and every pair of in-range vertices, [find_path(start, goal)] returns,
    and what it returns is empty exactly when no path from [start] to
    [goal] exists, is [[start]] when [start = goal], and when non-empty
    begins with [start], ends with [goal] and follows edges of the graph. *)
Theorem find_path_contract {C : Type} `{CostLaws C}
    (G : graph_view C) (alg : engine) (start goal : Z) :
  well_formed G -> in_range G start -> in_range G goal ->
  exists fuel0 p,
    (forall fuel, (fuel0 <= fuel)%nat ->
       Search.find_path G alg start goal fuel = Some p) /\
    (p = [] <-> ~ path_exists G start goal) /\
    (start = goal -> p = [start]) /\
    (p <> [] -> head p = Some start /\ last p = Some goal /\ is_path G p).
Proof.
  intros Hwf Hstart _.
  destruct (SearchFacts.init_invariant G alg start goal Hwf Hstart) as [Hinv Hfc].
  destruct (SearchFacts.search_terminates G alg start goal Hwf Hstart
              (S (SearchProof.measure G alg (Search.init G alg start goal)))
              (Search.init G alg start goal) ltac:(lia) Hinv Hfc)
    as (fuel0 & p & Hrun & Hiff & Hpath).
  exists fuel0, p. split; [exact Hrun|]. split; [exact Hiff|].
  split; [|exact Hpath].
  intros <-. specialize (Hrun (S fuel0) ltac:(lia)).
  pose proof (SearchFacts.find_path_same_vertex G alg start fuel0) as Hsame.
  unfold Search.find_path in Hsame. congruence.
Qed.

Lemma find_path_contract_witness :
  exists fuel0 p,
    (forall fuel, (fuel0 <= fuel)%nat ->
       Search.find_path scenario_graph_Qc AStar 0 3 fuel = Some p) /\
    (p = [] <-> ~ path_exists scenario_graph_Qc 0 3) /\
    (0 = 3 -> p = [0]) /\
    (p <> [] -> head p = Some 0 /\ last p = Some 3 /\ is_path scenario_graph_Qc p).
Proof.
  apply (find_path_contract scenario_graph_Qc AStar 0 3).
  - exact scenario_graph_Qc_well_formed.
  - unfold in_range. cbn [scenario_graph_Qc graph_size]. lia.
  - unfold in_range. cbn [scenario_graph_Qc graph_size]. lia.
Defined.

(** * Further properties of core.h *)

(** ** Checked and unchecked reads *)

Lemma size_t_out_of_range (n : nat) (v : Z) :
  is_int v -> Z.of_nat n <= max_size -> ~ (0 <= v < Z.of_nat n) ->
  Z.of_nat n <= size_t_of_int v.
Proof.
  intros Hi Hmax Hv. destruct (Z.lt_ge_cases v 0) as [Hneg|Hpos].
  - pose proof (size_t_of_int_neg v Hi Hneg) as Hbig.
    unfold max_size in Hmax.
    assert (2 ^ 60 < 2 ^ 63) by reflexivity. lia.
  - rewrite size_t_of_int_nonneg by auto. lia.
Qed.

Lemma subscript_out_of_range {A} (l : list A) (n : Z) :
  Z.of_nat (length l) <= n -> subscript l n = Undefined.
Proof.
  intros Hn. unfold subscript.
  rewrite (proj2 (lookup_ge_None l (Z.to_nat n))); [reflexivity | lia].
Qed.

Lemma dlt_zero_is_negative (x : double) : dlt x d_zero = is_negative x.
Proof. destruct x as [s|s| |s m e]; try reflexivity; destruct s; reflexivity. Qed.



(** X2: [get_pause_action_cost(v)] reads [weights_[v]] unchecked: when the
    pause-cost type is not 0 and the id is outside 0..size()-1 the call
    neither returns nor throws, its behaviour is undefined. *)
Theorem get_pause_action_cost_unchecked (g : AbsGrid) (v : Z) :
  is_int v -> Z.of_nat (Grid.size g) <= max_size ->
  ~ (0 <= v < Z.of_nat (Grid.size g)) ->
  Grid.get_pause_action_cost_type g <> 0 ->
  Grid.get_pause_action_cost_at g v = Undefined /\
  raises (Grid.get_pause_action_cost_at g v) = false.
Proof.
  intros Hi Hmax Hv Ht.
  assert (H : Grid.get_pause_action_cost_at g v = Undefined).
  { unfold Grid.get_pause_action_cost_at, Grid.get_pause_action_cost_type in *.
    destruct (Z.eqb_spec (pause_action_cost_type_ g) 0) as [|_]; [contradiction|].
    rewrite subscript_out_of_range; [reflexivity|].
    now apply size_t_out_of_range. }
  now rewrite H.
Qed.

Lemma get_pause_action_cost_unchecked_witness :
  Grid.get_pause_action_cost_at (grid_1x1 d_one 1) 1 = Undefined /\
  raises (Grid.get_pause_action_cost_at (grid_1x1 d_one 1) 1) = false.
Proof.
  apply get_pause_action_cost_unchecked.
  - unfold is_int. lia.
  - unfold Grid.size, max_size. cbn [grid_1x1 weights_ length]. lia.
  - unfold Grid.size. cbn [grid_1x1 weights_ length]. lia.
  - unfold Grid.get_pause_action_cost_type. cbn [grid_1x1 pause_action_cost_type_].
    lia.
Defined.

(** ** The configuration of a grid *)

Lemma grid_set_pause_action_cost_ok (g : AbsGrid) (c : double) :
  dlt c d_zero = false ->
  Grid.set_pause_action_cost c g =
    (Ret tt, with_graph g {| min_weight_ := min_weight_ (graph g);
                             pause_action_cost_ := c;
                             edge_collision_ := edge_collision_ (graph g) |}).
Proof.
  intros Hc. unfold Grid.set_pause_action_cost, inherited,
    Graph.set_pause_action_cost.
  now rewrite double_of_int_0, Hc.
Qed.

Lemma grid_set_pause_action_cost_throws (g : AbsGrid) (c : double) :
  dlt c d_zero = true ->
  exists msg, Grid.set_pause_action_cost c g = (Throw (invalid_argument msg), g).
Proof.
  intros Hc. unfold Grid.set_pause_action_cost, inherited,
    Graph.set_pause_action_cost.
  rewrite double_of_int_0, Hc. eexists. unfold throw.
  destruct g; reflexivity.
Qed.

Lemma set_pause_action_cost_type_ok (g : AbsGrid) (t : Z) :
  t = 0 \/ t = 1 ->
  Grid.set_pause_action_cost_type t g =
    (Ret tt, {| graph := graph g; weights_ := weights_ g;
                pause_action_cost_type_ := t |}).
Proof.
  intros Ht. unfold Grid.set_pause_action_cost_type.
  destruct (Z.ltb_spec t 0), (Z.ltb_spec 1 t); try lia. reflexivity.
Qed.

Lemma set_pause_action_cost_type_throws (g : AbsGrid) (t : Z) :
  t <> 0 -> t <> 1 ->
  exists msg, Grid.set_pause_action_cost_type t g = (Throw (invalid_argument msg), g).
Proof.
  intros H0 H1. unfold Grid.set_pause_action_cost_type.
  destruct (Z.ltb_spec t 0), (Z.ltb_spec 1 t); try lia; eexists; reflexivity.
Qed.

(** X3: the state the default initialisers give satisfies [config_ok], and
    every mutator defined in core.h keeps it, whether the call returns or
    throws: the pause cost is never below zero and the pause-cost type is
    always 0 or 1.  None of the configuration setters changes the
    weights. *)
Theorem config_ok_preserved (g : AbsGrid) (ws : list double) (c : double)
    (t : Z) (b : bool) :
  config_ok (AbsGrid_init ws) /\
  (config_ok g ->
     config_ok (after (Grid.set_pause_action_cost c) g) /\
     config_ok (after (Grid.set_pause_action_cost_type t) g) /\
     config_ok (after (GridBase.set_edge_collision b) g) /\
     config_ok (after Grid.clear_weights g)) /\
  weights_ (after (Grid.set_pause_action_cost c) g) = weights_ g /\
  weights_ (after (Grid.set_pause_action_cost_type t) g) = weights_ g /\
  weights_ (after (GridBase.set_edge_collision b) g) = weights_ g.
Proof.
  split; [split; [reflexivity | now left]|].
  assert (Hcost : after (Grid.set_pause_action_cost c) g = g \/
            after (Grid.set_pause_action_cost c) g =
              with_graph g {| min_weight_ := min_weight_ (graph g);
                              pause_action_cost_ := c;
                              edge_collision_ := edge_collision_ (graph g) |} /\
            dlt c d_zero = false).
  { unfold after. destruct (dlt c d_zero) eqn:Hc.
    - left. now destruct (grid_set_pause_action_cost_throws g c Hc) as [msg ->].
    - right. now rewrite (grid_set_pause_action_cost_ok g c Hc). }
  assert (Htype : after (Grid.set_pause_action_cost_type t) g = g \/
            after (Grid.set_pause_action_cost_type t) g =
              {| graph := graph g; weights_ := weights_ g;
                 pause_action_cost_type_ := t |} /\ (t = 0 \/ t = 1)).
  { unfold after. destruct (decide (t = 0 \/ t = 1)) as [Ht|Ht].
    - right. now rewrite (set_pause_action_cost_type_ok g t Ht).
    - left. destruct (set_pause_action_cost_type_throws g t) as [msg ->];
        [lia | lia | reflexivity]. }
  split; [|split; [|split]].
  - intros [Hp Ht]. split; [|split; [|split]].
    + destruct Hcost as [-> | [-> Hc]]; split; auto.
    + destruct Htype as [-> | [-> Hv]]; split; auto.
    + split; auto.
    + split; auto.
  - destruct Hcost as [-> | [-> _]]; reflexivity.
  - destruct Htype as [-> | [-> _]]; reflexivity.
  - reflexivity.
Qed.

(** X4: on a grid whose configuration is [config_ok], neither overload of
    [get_pause_action_cost] ever returns a value below zero, whatever the
    vertex and whatever the weights (a negative weight is clamped). *)
Theorem pause_cost_never_negative (g : AbsGrid) (v : Z) (r : double) :
  config_ok g ->
  Grid.get_pause_action_cost_at g v = Ret r ->
  dlt r d_zero = false /\ dlt (Grid.get_pause_action_cost g) d_zero = false.
Proof.
  intros [Hp _] Hr. split; [|exact Hp].
  unfold Grid.get_pause_action_cost_at in Hr.
  destruct (pause_action_cost_type_ g =? 0).
  - injection Hr as <-. exact Hp.
  - destruct (subscript (weights_ g) (size_t_of_int v)) as [w| |];
      try discriminate.
    rewrite double_of_int_0 in Hr.
    destruct (dlt w d_zero) eqn:Hw; injection Hr as <-; [reflexivity | exact Hw].
Qed.

Lemma pause_cost_never_negative_witness :
  dlt d_zero d_zero = false /\
  dlt (Grid.get_pause_action_cost (grid_1x1 d_minus_one 1)) d_zero = false.
Proof.
  apply (pause_cost_never_negative (grid_1x1 d_minus_one 1) 0 d_zero).
  - split; [reflexivity | now right].
  - reflexivity.
Defined.

Lemma documented_negative_is_obstacle (w : double) :
  documented_weight w -> dlt w d_zero = deq w d_minus_one.
Proof.
  intros [Hle | ->]; [|reflexivity].
  now rewrite (dle_zero_not_dlt w Hle), (dle_zero_not_minus_one w Hle).
Qed.

(** X5: with pause-cost type 1, on an in-range cell whose weight is one the
    comment on [weights_] allows, the clamp of [get_pause_action_cost(v)]
    fires exactly on obstacles: the result is 0 where [has_obstacle(v)]
    holds and [get_weight(v)] elsewhere. *)
Theorem pause_cost_of_obstacle (g : AbsGrid) (v : Z) (w : double) :
  is_int v -> 0 <= v ->
  weights_ g !! Z.to_nat v = Some w -> documented_weight w ->
  Grid.get_pause_action_cost_type g = 1 ->
  exists b,
    Grid.get_weight g v = Ret w /\
    Grid.has_obstacle g v = Ret b /\
    Grid.get_pause_action_cost_at g v = Ret (if b then d_zero else w).
Proof.
  intros Hi Hv Hw Hdoc Ht.
  pose proof (get_weight_lookup g v w Hi Hv Hw) as Hg.
  exists (deq w d_minus_one). split; [exact Hg|].
  split; [now apply has_obstacle_of_weight|].
  unfold Grid.get_pause_action_cost_at, Grid.get_pause_action_cost_type in *.
  rewrite Ht. change (1 =? 0) with false. cbv iota.
  rewrite size_t_of_int_nonneg by auto.
  unfold subscript. rewrite Hw, double_of_int_0.
  rewrite (documented_negative_is_obstacle w Hdoc).
  destruct (deq w d_minus_one); reflexivity.
Qed.

Lemma pause_cost_of_obstacle_witness :
  exists b,
    Grid.get_weight (grid_1x1 d_minus_one 1) 0 = Ret d_minus_one /\
    Grid.has_obstacle (grid_1x1 d_minus_one 1) 0 = Ret b /\
    Grid.get_pause_action_cost_at (grid_1x1 d_minus_one 1) 0
      = Ret (if b then d_zero else d_minus_one).
Proof.
  apply pause_cost_of_obstacle.
  - unfold is_int. lia.
  - lia.
  - reflexivity.
  - now right.
  - reflexivity.
Defined.

(** X6: a successful [set_pause_action_cost(c)] on a grid changes neither
    the weights nor the pause-cost type; with type 0 every vertex, in range
    or not, then has pause cost [c]; with any other type the per-vertex
    pause cost is what it was before the call. *)
Theorem set_pause_action_cost_on_grid (g : AbsGrid) (c : double) (v : Z) :
  dlt c d_zero = false ->
  result (Grid.set_pause_action_cost c) g = Ret tt /\
  weights_ (after (Grid.set_pause_action_cost c) g) = weights_ g /\
  Grid.get_pause_action_cost_type (after (Grid.set_pause_action_cost c) g)
    = Grid.get_pause_action_cost_type g /\
  Grid.get_pause_action_cost (after (Grid.set_pause_action_cost c) g) = c /\
  (Grid.get_pause_action_cost_type g = 0 ->
     Grid.get_pause_action_cost_at (after (Grid.set_pause_action_cost c) g) v
       = Ret c) /\
  (Grid.get_pause_action_cost_type g <> 0 ->
     Grid.get_pause_action_cost_at (after (Grid.set_pause_action_cost c) g) v
       = Grid.get_pause_action_cost_at g v).
Proof.
  intros Hc. unfold result, after.
  rewrite (grid_set_pause_action_cost_ok g c Hc). cbn [fst snd].
  unfold Grid.get_pause_action_cost_type, Grid.get_pause_action_cost,
    Grid.get_pause_action_cost_at.
  cbn [with_graph graph weights_ pause_action_cost_type_ pause_action_cost_].
  repeat split.
  - intros ->. reflexivity.
  - intros Ht. now destruct (Z.eqb_spec (pause_action_cost_type_ g) 0).
Qed.

Lemma set_pause_action_cost_on_grid_witness :
  Grid.get_pause_action_cost_at
    (after (Grid.set_pause_action_cost d_zero) (grid_1x1 d_one 0)) 7 = Ret d_zero.
Proof.
  destruct (set_pause_action_cost_on_grid (grid_1x1 d_one 0) d_zero 7)
    as (_ & _ & _ & _ & H & _).
  - reflexivity.
  - apply H. reflexivity.
Defined.

(** X7: the guarded setters compose as writes to one cell: of two accepted
    values the later one is stored, and a rejected call leaves the value an
    earlier call stored. *)
Theorem setters_last_accepted_wins (g : AbsGrid) (c1 c2 : double) (t1 t2 : Z) :
  dlt c1 d_zero = false -> t1 = 0 \/ t1 = 1 ->
  (dlt c2 d_zero = false ->
     after (Grid.set_pause_action_cost c2) (after (Grid.set_pause_action_cost c1) g)
       = after (Grid.set_pause_action_cost c2) g) /\
  (dlt c2 d_zero = true ->
     raises (result (Grid.set_pause_action_cost c2)
               (after (Grid.set_pause_action_cost c1) g)) = true /\
     Grid.get_pause_action_cost
       (after (Grid.set_pause_action_cost c2)
          (after (Grid.set_pause_action_cost c1) g)) = c1) /\
  (t2 = 0 \/ t2 = 1 ->
     after (Grid.set_pause_action_cost_type t2)
       (after (Grid.set_pause_action_cost_type t1) g)
       = after (Grid.set_pause_action_cost_type t2) g) /\
  (t2 <> 0 /\ t2 <> 1 ->
     raises (result (Grid.set_pause_action_cost_type t2)
               (after (Grid.set_pause_action_cost_type t1) g)) = true /\
     Grid.get_pause_action_cost_type
       (after (Grid.set_pause_action_cost_type t2)
          (after (Grid.set_pause_action_cost_type t1) g)) = t1).
Proof.
  intros Hc1 Ht1. unfold result, after.
  rewrite (grid_set_pause_action_cost_ok g c1 Hc1).
  rewrite (set_pause_action_cost_type_ok g t1 Ht1). cbn [snd].
  split; [|split; [|split]].
  - intros Hc2. now rewrite !(grid_set_pause_action_cost_ok _ c2 Hc2).
  - intros Hc2.
    destruct (grid_set_pause_action_cost_throws
                (with_graph g {| min_weight_ := min_weight_ (graph g);
                                 pause_action_cost_ := c1;
                                 edge_collision_ := edge_collision_ (graph g) |})
                c2 Hc2) as [msg ->].
    split; reflexivity.
  - intros Ht2. now rewrite !(set_pause_action_cost_type_ok _ t2 Ht2).
  - intros [H0 H1].
    destruct (set_pause_action_cost_type_throws
                {| graph := graph g; weights_ := weights_ g;
                   pause_action_cost_type_ := t1 |} t2 H0 H1) as [msg ->].
    split; reflexivity.
Qed.

Lemma setters_last_accepted_wins_witness :
  Grid.get_pause_action_cost
    (after (Grid.set_pause_action_cost d_minus_one)
       (after (Grid.set_pause_action_cost d_zero) (grid_1x1 d_one 0))) = d_zero.
Proof.
  destruct (setters_last_accepted_wins (grid_1x1 d_one 0) d_zero d_minus_one 0 0)
    as (_ & H & _).
  - reflexivity.
  - now left.
  - apply H. reflexivity.
Defined.

(** ** Clearing the weights *)

Lemma get_weight_cleared (g : AbsGrid) (v : Z) :
  is_int v -> 0 <= v < Z.of_nat (Grid.size g) ->
  weights_ (after Grid.clear_weights g) !! Z.to_nat v = Some d_one /\
  Grid.get_weight (after Grid.clear_weights g) v = Ret d_one.
Proof.
  intros Hi Hv.
  assert (Hl : weights_ (after Grid.clear_weights g) !! Z.to_nat v = Some d_one).
  { unfold after, Grid.clear_weights, modify, fill. cbn [snd with_weights weights_].
    rewrite double_of_int_1. apply lookup_replicate_2.
    unfold Grid.size in Hv. lia. }
  split; [exact Hl|]. apply get_weight_lookup; [auto | lia | exact Hl].
Qed.

(** X8: [clear_weights()] is idempotent, does nothing on a grid without
    cells and leaves the configuration alone; afterwards, with pause-cost
    type 1, pausing costs 1 on every in-range cell. *)
Theorem clear_weights_idempotent (g : AbsGrid) (v : Z) :
  after Grid.clear_weights (after Grid.clear_weights g)
    = after Grid.clear_weights g /\
  graph (after Grid.clear_weights g) = graph g /\
  Grid.get_pause_action_cost_type (after Grid.clear_weights g)
    = Grid.get_pause_action_cost_type g /\
  (Grid.size g = 0%nat -> after Grid.clear_weights g = g) /\
  (is_int v -> 0 <= v < Z.of_nat (Grid.size g) ->
   Grid.get_pause_action_cost_type g = 1 ->
   Grid.get_pause_action_cost_at (after Grid.clear_weights g) v = Ret d_one).
Proof.
  split; [|split; [|split; [|split]]].
  - unfold after, Grid.clear_weights, modify, fill, with_weights.
    cbn [snd graph weights_ pause_action_cost_type_].
    now rewrite length_replicate.
  - reflexivity.
  - reflexivity.
  - unfold Grid.size, after, Grid.clear_weights, modify, fill, with_weights.
    cbn [snd]. intros Hz. destruct g as [b ws t]. cbn [weights_ graph
      pause_action_cost_type_] in *.
    destruct ws; [reflexivity | discriminate].
  - intros Hi Hv Ht. destruct (get_weight_cleared g v Hi Hv) as [Hl _].
    unfold Grid.get_pause_action_cost_at, Grid.get_pause_action_cost_type in *.
    change (pause_action_cost_type_ (after Grid.clear_weights g))
      with (pause_action_cost_type_ g).
    rewrite Ht. change (1 =? 0) with false. cbv iota.
    rewrite size_t_of_int_nonneg by (auto; lia).
    unfold subscript. rewrite Hl. reflexivity.
Qed.

(** X9: [clear_weights()] does not touch [min_weight_]: [min_weight()]
    answers as before, so where it was above 1 every cell weight is
    strictly below [min_weight()] after the call. *)
Theorem clear_weights_keeps_min_weight (g : AbsGrid) (v : Z) :
  GridBase.min_weight (after Grid.clear_weights g) = GridBase.min_weight g /\
  (is_int v -> 0 <= v < Z.of_nat (Grid.size g) ->
   dlt d_one (GridBase.min_weight g) = true ->
   exists w,
     Grid.get_weight (after Grid.clear_weights g) v = Ret w /\
     dlt w (GridBase.min_weight (after Grid.clear_weights g)) = true).
Proof.
  split; [reflexivity|].
  intros Hi Hv Hmin. destruct (get_weight_cleared g v Hi Hv) as [_ Hw].
  exists d_one. split; [exact Hw | exact Hmin].
Qed.

(** ** Values the pause-cost guard lets through *)

(** X10: [set_pause_action_cost(c)] returns exactly when [c] is not
    strictly below zero as a double; a NaN passes the guard [cost < 0],
    is stored, and [get_pause_action_cost()] then returns it. *)
Theorem set_pause_action_cost_accepts (g : AbsGraph) (c : double) :
  (result (Graph.set_pause_action_cost c) g = Ret tt <-> is_negative c = false) /\
  (raises (result (Graph.set_pause_action_cost c) g) = true <-> is_negative c = true) /\
  result (Graph.set_pause_action_cost S754_nan) g = Ret tt /\
  Graph.get_pause_action_cost (after (Graph.set_pause_action_cost S754_nan) g)
    = S754_nan.
Proof.
  unfold result, after, Graph.set_pause_action_cost, Graph.get_pause_action_cost.
  rewrite double_of_int_0, dlt_zero_is_negative.
  split; [|split; [|split; reflexivity]].
  - destruct (is_negative c); split; try reflexivity; discriminate.
  - destruct (is_negative c); split; try reflexivity; discriminate.
Qed.
